(** * Sonic Pixelator: the encode/decode codec of [encoder.service.ts]

    A shallow embedding of [EncoderService] (payload framing, the noise
    codec, the stego capacity planner, the LSB embedder with OPAP, the
    seeded pixel shuffle, the format detector and the stego extractor),
    followed by the properties the specification states about them.

    Conventions of the embedding.
    - JavaScript numbers that hold integers are [Z]; the 32-bit
      conversions of the bitwise operators are written out
      ([ToInt32], [ToUint32]).
    - A [Uint8Array] / [Uint8ClampedArray] / [Uint32Array] is a [list Z];
      reading past the end gives [undefined], which the bitwise operators
      and typed-array stores turn into 0, hence [rd]; a store past the end
      is ignored, which is what stdpp's list insert does.
    - A [throw] is the [Err] case of [result].
    - What the class takes from the browser is not modelled but named:
      text encoding and decoding, gzip decompression and the one rounded
      computation on doubles are the fields of [Platform], and a decoded
      cover image carries its own rendering ([ImageBitmap]).  The PNG
      file between the encoder's canvas and the decoder's canvas is taken
      to be lossless, so an encoder ends, and the decoder starts, at an
      [ImageData]. *)

From Stdlib Require Import ZArith Bool Ascii String.
From stdpp Require Import base numbers list.

Local Open Scope Z_scope.

(** ** JavaScript integer operations *)

Module JS.

Definition ToUint32 (x : Z) : Z := x mod 2 ^ 32.

Definition ToInt32 (x : Z) : Z := (x + 2 ^ 31) mod 2 ^ 32 - 2 ^ 31.

(** [Math.imul(a, b)] *)
Definition imul (a b : Z) : Z := ToInt32 (ToInt32 a * ToInt32 b).

(** [a ^ b] *)
Definition xor (a b : Z) : Z := Z.lxor (ToInt32 a) (ToInt32 b).

(** [a | b] *)
Definition or (a b : Z) : Z := Z.lor (ToInt32 a) (ToInt32 b).

(** [a >>> n] for [0 <= n < 32] *)
Definition ushr (a n : Z) : Z := Z.shiftr (ToUint32 a) n.

(** [Math.ceil(a / b)] for integers [a] and [b > 0] *)
Definition ceil_div (a b : Z) : Z := - ((- a) / b).

(** [Math.ceil(Math.sqrt(n))] for an integer [n >= 0]: the square root
    of a double below 2^52 is correctly rounded, so it is an integer
    exactly when [n] is a perfect square and lies strictly between
    [Z.sqrt n] and its successor otherwise. *)
Definition ceil_sqrt (n : Z) : Z :=
  let r := Z.sqrt n in if r * r =? n then r else r + 1.

(** store into a [Uint8Array] *)
Definition wrap8 (x : Z) : Z := x mod 256.

(** store into a [Uint8ClampedArray] *)
Definition clamp8 (x : Z) : Z := Z.max 0 (Z.min 255 x).

End JS.

(** Array read [a[i]], where [undefined] is used as the number 0. *)
Definition rd (a : list Z) (i : Z) : Z :=
  if i <? 0 then 0 else default 0 (a !! Z.to_nat i).

(** Array write [a[i] = v] on a typed array: ignored out of range. *)
Definition wr (a : list Z) (i : Z) (v : Z) : list Z :=
  if i <? 0 then a else <[Z.to_nat i := v]> a.

(** [a.length] *)
Definition len (a : list Z) : Z := Z.of_nat (length a).

(** [a.slice(s, e)] for [0 <= s] *)
Definition slice (a : list Z) (s e : Z) : list Z :=
  take (Z.to_nat (e - s)) (drop (Z.to_nat s) a).

(** Every element is a byte. *)
Definition bytes (a : list Z) : Prop := Forall (fun b => 0 <= b < 256) a.

(** ** Errors *)

(** The exceptions the service can raise, one constructor per [throw]
    site (named after its message) and one for the exceptions of the
    runtime itself. *)
Inductive error :=
| InvalidInnerMagic      (* 'Data Extraction Error: ... (Invalid Inner Magic). ...' *)
| BufferTruncated        (* 'Header Read Error: Buffer truncated.' *)
| MimeLengthOverflow     (* 'Header Read Error: Mime length overflow.' *)
| NameLengthOverflow     (* 'Header Read Error: Name length overflow.' *)
| DecompressFailed       (* 'Failed to decompress audio data. ...' *)
| InvalidBPC             (* 'Invalid BPC detected in header.' *)
| LengthExceedsCapacity  (* 'Header payload length exceeds image capacity.' *)
| NoSonicData            (* 'This image does not contain valid Sonic Pixelator data. ...' *)
| RangeError.            (* raised by DataView.getUint32 and by new Uint32Array(n) *)

Inductive result (A : Type) :=
| Ok (a : A)
| Err (e : error).
Arguments Ok {A} a.
Arguments Err {A} e.

Definition bind {A B} (r : result A) (k : A -> result B) : result B :=
  match r with Ok a => k a | Err e => Err e end.

Notation "x <- r ;; k" := (bind r (fun x => k))
  (at level 100, r at next level, right associativity).

(** The error kinds of the specification. *)
Inductive kind :=
| UnrecognizedFormat
| InvalidStegoHeader
| UnrecognizedPayloadMagic
| TruncatedHeader
| DecompressionFailed
| RuntimeError.

Definition kind_of (e : error) : kind :=
  match e with
  | NoSonicData => UnrecognizedFormat
  | InvalidBPC | LengthExceedsCapacity => InvalidStegoHeader
  | InvalidInnerMagic => UnrecognizedPayloadMagic
  | BufferTruncated | MimeLengthOverflow | NameLengthOverflow => TruncatedHeader
  | DecompressFailed => DecompressionFailed
  | RangeError => RuntimeError
  end.

(** ** Browser services *)

(** What the class uses of the browser and of the runtime: the strings
    of files, their UTF-8 encoder and decoder, gzip decompression
    ([None] when the stream is rejected), and the one computation on
    doubles whose rounding shows in the result,
    [Math.ceil(x * Math.sqrt(d / a))] for integers [x], [d], [a]. *)
Class Platform := {
  text : Type;
  TextEncoder_encode : text -> list Z;
  TextDecoder_decode : list Z -> text;
  gunzip : list Z -> option (list Z);
  ceil_times_sqrt : Z -> Z -> Z -> Z
}.

(** A [File]: contents, [type] and [name]. *)
Record File `{Platform} := {
  file_data : list Z;
  file_type : text;
  file_name : text
}.

Record DecodedAudio `{Platform} := {
  blob : list Z;
  fileName : text;
  fileType : text
}.

(** The RGBA contents of a canvas ([ImageData]). *)
Record ImageData := {
  width : Z;
  height : Z;
  data : list Z
}.

(** A decoded cover image: its size and what [getImageData] returns
    after [drawImage(img, 0, 0, w, h)] on a [w] x [h] canvas. *)
Record ImageBitmap := {
  img_width : Z;
  img_height : Z;
  drawImage : Z -> Z -> list Z
}.

(** ** Constants *)

Definition MAGIC_SNIC : list Z := [0x53; 0x4E; 0x49; 0x43].
Definition MAGIC_SNIZ : list Z := [0x53; 0x4E; 0x49; 0x5A].
Definition MAGIC_SNIH : list Z := [0x53; 0x4E; 0x49; 0x48].
Definition RESERVED_HEADER_PIXELS : Z := 32.

(** The four-iteration comparison loops [check[i] !== MAGIC[i]]. *)
Definition magic_eq (check magic : list Z) : bool :=
  forallb (fun i => bool_decide (check !! i = magic !! i)) (seq 0 4).

(** ** Optimal pixel adjustment *)

(** [applyOPAP(original, modified, bpc)] *)
Definition applyOPAP (original modified bpc : Z) : Z :=
  let delta := modified - original in
  let interval := Z.shiftl 1 bpc in
  let limit := Z.shiftl 1 (bpc - 1) in
  if (limit <? delta) && (0 <=? modified - interval) then modified - interval
  else if (delta <? - limit) && (modified + interval <=? 255) then modified + interval
  else modified.

(** [(originalVal & ~mask) | bitsToEmbed] with [mask = (1 << bpc) - 1] *)
Definition substitute (originalVal bitsToEmbed bpc : Z) : Z :=
  let mask := Z.shiftl 1 bpc - 1 in
  Z.lor (Z.land originalVal (Z.lnot mask)) bitsToEmbed.

(** ** Deterministic pixel shuffle *)

(** The seed of the generator, [1337 ^ 0xDEADBEEF]. *)
Definition shuffle_seed : Z := JS.xor 1337 0xDEADBEEF.

(** One call of the closure [random]: the updated [seed], and the
    numerator [k] of the returned number [k / 4294967296].  [seed] is a
    JavaScript number that grows by 0x6D2B79F5 per call without being
    wrapped (it stays an exact integer for more than four million
    calls); the bitwise operators wrap what they read. *)
Definition random (seed : Z) : Z * Z :=
  let seed := seed + 0x6D2B79F5 in
  let t := seed in
  let t := JS.imul (JS.xor t (JS.ushr t 15)) (JS.or t 1) in
  let t := JS.xor t (t + JS.imul (JS.xor t (JS.ushr t 7)) (JS.or t 61)) in
  (seed, JS.ToUint32 (JS.xor t (JS.ushr t 14))).

(** [temp = a[i]; a[i] = a[j]; a[j] = temp] *)
Definition swap (a : list Z) (i j : Z) : list Z :=
  let temp := rd a i in
  wr (wr a i (rd a j)) j temp.

(** [Math.floor(random() * (i + 1))] for the numerator [k]: the
    quotient [k / 2^32] is exact in binary64, and so is its product with
    [i + 1] as long as that product is below 2^53, which it is for
    arrays of up to 2^21 indices. *)
Definition random_index (k i : Z) : Z := (k * (i + 1)) / 4294967296.

(** [for (let i = count - 1; i > 0; i--)], entered at [i]. *)
Fixpoint shuffle_from (i : nat) (seed : Z) (indices : list Z) : list Z :=
  match i with
  | O => indices
  | S i' =>
      let '(seed, k) := random seed in
      let j := random_index k (Z.of_nat i) in
      shuffle_from i' seed (swap indices (Z.of_nat i) j)
  end.

(** [getShuffledIndices(totalPixels, reservedPixels)];
    [new Uint32Array(count)] raises a [RangeError] for a negative
    [count].  The elements [reservedPixels + i] are kept as they are:
    the array stores them unchanged as long as they lie in
    [0, 2^32), which holds for every pixel index of an image. *)
Definition getShuffledIndices (totalPixels reservedPixels : Z) : result (list Z) :=
  let count := totalPixels - reservedPixels in
  if count <? 0 then Err RangeError
  else
    let indices := seqZ reservedPixels count in
    Ok (shuffle_from (Z.to_nat (count - 1)) shuffle_seed indices).

(** ** Payload framing *)

(** [DataView.setUint32(0, n, true)]: the four bytes of [n], low first. *)
Definition setUint32 (n : Z) : list Z :=
  let n := JS.ToUint32 n in
  [Z.land n 255; Z.land (Z.shiftr n 8) 255;
   Z.land (Z.shiftr n 16) 255; Z.land (Z.shiftr n 24) 255].

(** [new DataView(b.buffer).getUint32(0, true)]; a [RangeError] when the
    buffer has fewer than four bytes. *)
Definition getUint32 (b : list Z) : result Z :=
  if len b <? 4 then Err RangeError
  else Ok (rd b 0 + 256 * rd b 1 + 65536 * rd b 2 + 16777216 * rd b 3).

Section Service.
Context `{Platform}.

(** Text that the encoder and the decoder of the platform carry
    through: encoding gives bytes, and decoding them gives the text
    back.  (In a browser [new TextDecoder()] drops a leading byte order
    mark, so a name that starts with U+FEFF is not such a text.) *)
Definition text_ok (s : text) : Prop :=
  bytes (TextEncoder_encode s) /\ TextDecoder_decode (TextEncoder_encode s) = s.

(** [createPayload(file)] *)
Definition createPayload (file : File) : list Z :=
  let rawDataBytes := file_data file in
  let magic := MAGIC_SNIC in
  let finalData := rawDataBytes in
  let mimeBytes := TextEncoder_encode (file_type file) in
  let nameBytes := TextEncoder_encode (file_name file) in
  magic ++ setUint32 (len finalData)
        ++ [JS.wrap8 (len mimeBytes)] ++ mimeBytes
        ++ [JS.wrap8 (len nameBytes)] ++ nameBytes
        ++ finalData.

(** [decompressData(data)]: the decoded gzip stream, or the error that
    the [catch] raises. *)
Definition decompressData (data : list Z) : result (list Z) :=
  match gunzip data with
  | Some d => Ok d
  | None => Err DecompressFailed
  end.

(** [parsePayload(buffer)] *)
Definition parsePayload (buffer : list Z) : result DecodedAudio :=
  let ptr := 0 in
  let magicCheck := slice buffer 0 4 in
  let isSnic := magic_eq magicCheck MAGIC_SNIC in
  let isSniz := magic_eq magicCheck MAGIC_SNIZ in
  if negb isSnic && negb isSniz then Err InvalidInnerMagic else
  let isCompressed := isSniz in
  let ptr := ptr + 4 in
  dataSize <- getUint32 (slice buffer ptr (ptr + 4)) ;;
  let ptr := ptr + 4 in
  if len buffer <? ptr + 1 then Err BufferTruncated else
  let mimeLen := rd buffer ptr in
  let ptr := ptr + 1 in
  if len buffer <? ptr + mimeLen then Err MimeLengthOverflow else
  let mimeType := TextDecoder_decode (slice buffer ptr (ptr + mimeLen)) in
  let ptr := ptr + mimeLen in
  if len buffer <? ptr + 1 then Err BufferTruncated else
  let nameLen := rd buffer ptr in
  let ptr := ptr + 1 in
  if len buffer <? ptr + nameLen then Err NameLengthOverflow else
  let fileName := TextDecoder_decode (slice buffer ptr (ptr + nameLen)) in
  let ptr := ptr + nameLen in
  let fileData := slice buffer ptr (Z.min (ptr + dataSize) (len buffer)) in
  fileData <- (if isCompressed
               then match gunzip fileData with
                    | Some d => Ok d
                    | None => Err DecompressFailed
                    end
               else Ok fileData) ;;
  Ok {| blob := fileData; fileName := fileName; fileType := mimeType |}.

(** ** Noise codec *)

(** [bufferIdx < fullBuffer.length ? fullBuffer[bufferIdx++] : 0] *)
Definition next_byte (fullBuffer : list Z) (bufferIdx : Z) : Z * Z :=
  if bufferIdx <? len fullBuffer
  then (rd fullBuffer bufferIdx, bufferIdx + 1)
  else (0, bufferIdx).

(** The pixel loop of [encodeFileToImage], [n] pixels to go; the
    pixels are produced in raster order into a fresh array. *)
Fixpoint noise_pixels (n : nat) (fullBuffer : list Z) (bufferIdx : Z) : list Z :=
  match n with
  | O => []
  | S n' =>
      let '(r, bufferIdx) := next_byte fullBuffer bufferIdx in
      let '(g, bufferIdx) := next_byte fullBuffer bufferIdx in
      let '(b, bufferIdx) := next_byte fullBuffer bufferIdx in
      JS.clamp8 r :: JS.clamp8 g :: JS.clamp8 b :: 255
        :: noise_pixels n' fullBuffer bufferIdx
  end.

(** The size computation of [encodeFileToImage]:
    [(totalPixels, width, height)]. *)
Definition noise_size (length : Z) : Z * Z * Z :=
  let totalPixels := JS.ceil_div length 3 in
  let width := JS.ceil_sqrt totalPixels in
  let height := JS.ceil_div totalPixels width in
  (totalPixels, width, height).

(** [encodeFileToImage(file)], up to the canvas: the image data handed
    to [renderToCanvas]. *)
Definition encodeFileToImage (file : File) : ImageData :=
  let fullBuffer := createPayload file in
  let '(totalPixels, width, height) := noise_size (len fullBuffer) in
  {| width := width; height := height;
     data := noise_pixels (Z.to_nat (width * height)) fullBuffer 0 |}.

(** The loop of [decodeStandardImage], [n] pixels to go from pixel [i]. *)
Fixpoint standard_bytes (n : nat) (i : Z) (pixels : list Z) : list Z :=
  match n with
  | O => []
  | S n' =>
      let idx := i * 4 in
      JS.wrap8 (rd pixels idx) :: JS.wrap8 (rd pixels (idx + 1))
        :: JS.wrap8 (rd pixels (idx + 2)) :: standard_bytes n' (i + 1) pixels
  end.

(** [decodeStandardImage(pixels, width, height)] *)
Definition decodeStandardImage (pixels : list Z) (width height : Z)
  : result DecodedAudio :=
  let extractedBuffer := standard_bytes (Z.to_nat (width * height)) 0 pixels in
  parsePayload extractedBuffer.

(** ** Linear header stream (1 bit per channel, cycling R, G, B) *)

(** [for (b = 0; b < n; b++) headerBits.push((x >> b) & 1)] *)
Fixpoint bits_of (n : nat) (b : Z) (x : Z) : list Z :=
  match n with
  | O => []
  | S n' => Z.land (Z.shiftr x b) 1 :: bits_of n' (b + 1) x
  end.

(** The 72 header bits: magic, payload length, bits per channel. *)
Definition headerBits (length finalBPC : Z) : list Z :=
  flat_map (bits_of 8 0) MAGIC_SNIH
    ++ bits_of 32 0 (JS.ToInt32 length)
    ++ bits_of 8 0 finalBPC.

(** The header-writing loop of [hideDataInImage]. *)
Fixpoint write_header (bits : list Z) (pixelIdx channelIdx : Z) (pixels : list Z)
  : list Z :=
  match bits with
  | [] => pixels
  | bit :: bits =>
      let pIdx := pixelIdx * 4 + channelIdx in
      let pixels :=
        wr pixels pIdx (JS.clamp8 (Z.lor (Z.land (rd pixels pIdx) (Z.lnot 1)) bit)) in
      let channelIdx := channelIdx + 1 in
      if 2 <? channelIdx then write_header bits (pixelIdx + 1) 0 pixels
      else write_header bits pixelIdx channelIdx pixels
  end.

(** The eight-iteration loop that reads one byte from the linear
    stream: the value and the advanced [(pixelIdx, channelIdx)]. *)
Fixpoint read_bits (n : nat) (b : Z) (pixels : list Z)
         (pixelIdx channelIdx val : Z) : Z * Z * Z :=
  match n with
  | O => (val, pixelIdx, channelIdx)
  | S n' =>
      let pIdx := pixelIdx * 4 + channelIdx in
      let bit := Z.land (rd pixels pIdx) 1 in
      let val := Z.lor val (Z.shiftl bit b) in
      let channelIdx := channelIdx + 1 in
      if 2 <? channelIdx then read_bits n' (b + 1) pixels (pixelIdx + 1) 0 val
      else read_bits n' (b + 1) pixels pixelIdx channelIdx val
  end.

(** [readByte()] of [decodeStegoImage] *)
Definition readByte (pixels : list Z) (pixelIdx channelIdx : Z) : Z * Z * Z :=
  read_bits 8 0 pixels pixelIdx channelIdx 0.

(** [n] successive bytes of the linear stream. *)
Fixpoint read_bytes (n : nat) (pixels : list Z) (pixelIdx channelIdx : Z)
  : list Z * Z * Z :=
  match n with
  | O => ([], pixelIdx, channelIdx)
  | S n' =>
      let '(v, pixelIdx, channelIdx) := readByte pixels pixelIdx channelIdx in
      let '(vs, pixelIdx, channelIdx) := read_bytes n' pixels pixelIdx channelIdx in
      (JS.wrap8 v :: vs, pixelIdx, channelIdx)
  end.

(** ** Capacity planner *)

(** The double [scale], kept symbolically. *)
Inductive Scale :=
| ScaleOne                               (* 1.0 *)
| ScaleFit (desiredPixels area : Z)      (* Math.sqrt(desiredPixels / area) *)
| ScaleHeadroom.                         (* 1.25 *)

(** [Math.ceil(a / b) > c] for integers with [0 <= a]; the quotient is
    [Infinity] or [NaN] when [b] is 0. *)
Definition ceil_quot_gt (a b c : Z) : bool :=
  if b =? 0 then 0 <? a else c <? JS.ceil_div a b.

(** [a / b > 0.5] for integers with [0 <= a]. *)
Definition quot_gt_half (a b : Z) : bool :=
  if b =? 0 then 0 <? a else if b <? 0 then false else b <? 2 * a.

(** [scale === 1.0] *)
Definition scale_is_one (s : Scale) : bool :=
  match s with
  | ScaleOne => true
  | ScaleFit d a => d =? a
  | ScaleHeadroom => false
  end.

(** [Math.max(1, scale)] *)
Definition scale_max_one (s : Scale) : Scale :=
  match s with
  | ScaleFit d a => if d <? a then ScaleOne else s
  | _ => s
  end.

(** [Math.ceil(x * scale)].  The products with 1.0 and 1.25 are exact;
    the product with [Math.sqrt(d / a)] is rounded, and the doubles can
    end above the exact value: [18 * Math.sqrt(1444 / 144)] is 57 in
    exact arithmetic and 57.00000000000001 in doubles, hence 58. *)
Definition ceil_scaled (x : Z) (s : Scale) : Z :=
  match s with
  | ScaleOne => x
  | ScaleFit d a => ceil_times_sqrt x d a
  | ScaleHeadroom => JS.ceil_div (x * 5) 4
  end.

(** The rounding of [Math.ceil(x * Math.sqrt(d / a))] does not end below
    the exact value: the result [n] is a natural number with
    [n >= x * sqrt(d / a)]. *)
Definition sqrt_ok (x d a : Z) : Prop :=
  let n := ceil_times_sqrt x d a in
  0 <= n /\ x * x * d <= n * n * a.

(** That, for the two sides of a [width] x [height] cover and every
    desired pixel count. *)
Definition scaling_ok (width height : Z) : Prop :=
  forall d, 0 <= d ->
    sqrt_ok width d (width * height) /\ sqrt_ok height d (width * height).

(** The scaling decision of [hideDataInImage]:
    [(newWidth, newHeight, finalBPC)]. *)
Definition plan (totalPayloadBits width height targetBPC : Z) : Z * Z * Z :=
  let availablePixels := width * height - RESERVED_HEADER_PIXELS in
  let scale := ScaleOne in
  let scale :=
    if ceil_quot_gt totalPayloadBits (availablePixels * 3) targetBPC then
      let desiredChannels := JS.ceil_div totalPayloadBits targetBPC in
      let desiredPixels := JS.ceil_div desiredChannels 3 + RESERVED_HEADER_PIXELS in
      ScaleFit desiredPixels (width * height)
    else scale in
  let scale :=
    if quot_gt_half totalPayloadBits (availablePixels * 3 * targetBPC)
       && scale_is_one scale
    then ScaleHeadroom else scale in
  let scale := scale_max_one scale in
  let newWidth := ceil_scaled width scale in
  let newHeight := ceil_scaled height scale in
  let finalBPC := targetBPC in
  (newWidth, newHeight, finalBPC).

(** ** Stego embedder *)

(** [for (let i = 3; i < pixels.length; i += 4) pixels[i] = 255] *)
Fixpoint force_alpha (n : nat) (i : Z) (pixels : list Z) : list Z :=
  match n with
  | O => pixels
  | S n' => force_alpha n' (i + 4) (wr pixels i 255)
  end.

(** The loop over [b] that collects up to [finalBPC] payload bits:
    [(bitsToEmbed, payloadByteIdx, payloadBitIdx)]. *)
Fixpoint take_bits (payload : list Z) (n : nat) (b : Z)
         (payloadByteIdx payloadBitIdx bitsToEmbed : Z) : Z * Z * Z :=
  match n with
  | O => (bitsToEmbed, payloadByteIdx, payloadBitIdx)
  | S n' =>
      if payloadByteIdx <? len payload then
        let bit := Z.land (Z.shiftr (rd payload payloadByteIdx) payloadBitIdx) 1 in
        let bitsToEmbed := Z.lor bitsToEmbed (Z.shiftl bit b) in
        let payloadBitIdx := payloadBitIdx + 1 in
        if payloadBitIdx =? 8
        then take_bits payload n' (b + 1) (payloadByteIdx + 1) 0 bitsToEmbed
        else take_bits payload n' (b + 1) payloadByteIdx payloadBitIdx bitsToEmbed
      else take_bits payload n' (b + 1) payloadByteIdx payloadBitIdx bitsToEmbed
  end.

Record Embed := {
  e_byteIdx : Z;
  e_bitIdx : Z;
  e_pixels : list Z
}.

(** The loop over the channels [c] of one target pixel, with its
    [break]. *)
Fixpoint embed_channels (n : nat) (c : Z) (payload : list Z)
         (targetPixelIndex finalBPC : Z) (st : Embed) : Embed :=
  match n with
  | O => st
  | S n' =>
      let pIdx := targetPixelIndex * 4 + c in
      let '(bitsToEmbed, payloadByteIdx, payloadBitIdx) :=
        take_bits payload (Z.to_nat finalBPC) 0 (e_byteIdx st) (e_bitIdx st) 0 in
      let originalVal := rd (e_pixels st) pIdx in
      let modifiedVal := substitute originalVal bitsToEmbed finalBPC in
      let modifiedVal :=
        if finalBPC <? 8 then applyOPAP originalVal modifiedVal finalBPC
        else modifiedVal in
      let st := {| e_byteIdx := payloadByteIdx; e_bitIdx := payloadBitIdx;
                   e_pixels := wr (e_pixels st) pIdx (JS.clamp8 modifiedVal) |} in
      if (len payload <=? payloadByteIdx) && (payloadBitIdx =? 0) then st
      else embed_channels n' (c + 1) payload targetPixelIndex finalBPC st
  end.

(** The [while] loop over the shuffled indices still to visit. *)
Fixpoint embed_pixels (shuffled : list Z) (payload : list Z) (finalBPC : Z)
         (st : Embed) : Embed :=
  match shuffled with
  | [] => st
  | targetPixelIndex :: shuffled =>
      if e_byteIdx st <? len payload
      then embed_pixels shuffled payload finalBPC
             (embed_channels 3 0 payload targetPixelIndex finalBPC st)
      else st
  end.

(** [hideDataInImage(audioFile, coverImage, targetBPC)], up to the
    canvas: the image data handed to [putImageData]. *)
Definition hideDataInImage (audioFile : File) (coverImage : ImageBitmap)
           (targetBPC : Z) : result ImageData :=
  let payload := createPayload audioFile in
  let totalPayloadBits := len payload * 8 in
  let '(newWidth, newHeight, finalBPC) :=
    plan totalPayloadBits (img_width coverImage) (img_height coverImage) targetBPC in
  let pixels := drawImage coverImage newWidth newHeight in
  let pixels := force_alpha (Z.to_nat (len pixels / 4)) 3 pixels in
  let pixels := write_header (headerBits (len payload) finalBPC) 0 0 pixels in
  shuffledIndices <- getShuffledIndices (newWidth * newHeight) RESERVED_HEADER_PIXELS ;;
  let st := embed_pixels shuffledIndices payload finalBPC
              {| e_byteIdx := 0; e_bitIdx := 0; e_pixels := pixels |} in
  Ok {| width := newWidth; height := newHeight; data := e_pixels st |}.

(** ** Stego extractor *)

Record Extract := {
  x_byteIdx : Z;
  x_bitIdx : Z;
  x_currentByte : Z;
  x_payload : list Z
}.

(** The loop over [b] that unpacks the [bpc] bits of one channel, with
    its [break]. *)
Fixpoint extract_bits (n : nat) (b : Z) (bits payloadLen : Z) (st : Extract)
  : Extract :=
  match n with
  | O => st
  | S n' =>
      let bit := Z.land (Z.shiftr bits b) 1 in
      let currentByte := Z.lor (x_currentByte st) (Z.shiftl bit (x_bitIdx st)) in
      let payloadBitIdx := x_bitIdx st + 1 in
      if payloadBitIdx =? 8 then
        let st := {| x_byteIdx := x_byteIdx st + 1; x_bitIdx := 0;
                     x_currentByte := 0;
                     x_payload := wr (x_payload st) (x_byteIdx st)
                                     (JS.wrap8 currentByte) |} in
        if payloadLen <=? x_byteIdx st then st
        else extract_bits n' (b + 1) bits payloadLen st
      else
        extract_bits n' (b + 1) bits payloadLen
          {| x_byteIdx := x_byteIdx st; x_bitIdx := payloadBitIdx;
             x_currentByte := currentByte; x_payload := x_payload st |}
  end.

(** The loop over the channels of one target pixel, with its [break]. *)
Fixpoint extract_channels (n : nat) (c : Z) (pixels : list Z)
         (targetPixelIndex bpc payloadLen : Z) (st : Extract) : Extract :=
  match n with
  | O => st
  | S n' =>
      let mask := Z.shiftl 1 bpc - 1 in
      let pIdx := targetPixelIndex * 4 + c in
      let bits := Z.land (rd pixels pIdx) mask in
      let st := extract_bits (Z.to_nat bpc) 0 bits payloadLen st in
      if payloadLen <=? x_byteIdx st then st
      else extract_channels n' (c + 1) pixels targetPixelIndex bpc payloadLen st
  end.

(** The [while] loop over the shuffled indices still to visit. *)
Fixpoint extract_pixels (shuffled : list Z) (pixels : list Z)
         (bpc payloadLen : Z) (st : Extract) : Extract :=
  match shuffled with
  | [] => st
  | targetPixelIndex :: shuffled =>
      if x_byteIdx st <? payloadLen
      then extract_pixels shuffled pixels bpc payloadLen
             (extract_channels 3 0 pixels targetPixelIndex bpc payloadLen st)
      else st
  end.

(** The header fields [decodeStegoImage] reads after the magic:
    [(payloadLen, bpc)]. *)
Definition read_stego_header (pixels : list Z) (startPixelIdx startChannelIdx : Z)
  : result (Z * Z) :=
  let '(lenBytes, pixelIdx, channelIdx) :=
    read_bytes 4 pixels startPixelIdx startChannelIdx in
  payloadLen <- getUint32 lenBytes ;;
  let '(bpc, _, _) := readByte pixels pixelIdx channelIdx in
  Ok (payloadLen, bpc).

(** The two checks of [decodeStegoImage] on the header fields. *)
Definition check_stego_header (width height payloadLen bpc : Z) : result unit :=
  if (bpc <? 1) || (8 <? bpc) then Err InvalidBPC
  else if width * height * 3 * bpc <? payloadLen then Err LengthExceedsCapacity
  else Ok tt.

(** [decodeStegoImage] up to its last line: the state in which the
    extraction loop ends, [x_payload] being the buffer handed to
    [parsePayload]. *)
Definition extractStego (pixels : list Z) (width height : Z)
           (startPixelIdx startChannelIdx : Z) : result Extract :=
  header <- read_stego_header pixels startPixelIdx startChannelIdx ;;
  let '(payloadLen, bpc) := header in
  _ <- check_stego_header width height payloadLen bpc ;;
  shuffledIndices <- getShuffledIndices (width * height) RESERVED_HEADER_PIXELS ;;
  let payload := replicate (Z.to_nat payloadLen) 0 in
  Ok (extract_pixels shuffledIndices pixels bpc payloadLen
        {| x_byteIdx := 0; x_bitIdx := 0; x_currentByte := 0;
           x_payload := payload |}).

(** [decodeStegoImage(pixels, width, height, startPixelIdx, startChannelIdx)] *)
Definition decodeStegoImage (pixels : list Z) (width height : Z)
           (startPixelIdx startChannelIdx : Z) : result DecodedAudio :=
  st <- extractStego pixels width height startPixelIdx startChannelIdx ;;
  parsePayload (x_payload st).

(** ** Format detector *)

Inductive Format :=
| Standard                                   (* SNIC or SNIZ at the probe offsets *)
| Stego (pixelIdx channelIdx : Z)            (* SNIH in the linear stream *)
| Unknown.

(** The detection phase of [decodeImageToFile]. *)
Definition detect (pixels : list Z) : Format :=
  let rawCheck := [JS.wrap8 (rd pixels 0); JS.wrap8 (rd pixels 1);
                   JS.wrap8 (rd pixels 2); JS.wrap8 (rd pixels 4)] in
  let isStandardRaw := magic_eq rawCheck MAGIC_SNIC in
  let isStandardZip := magic_eq rawCheck MAGIC_SNIZ in
  if isStandardRaw || isStandardZip then Standard
  else
    let '(stegoMagicBuffer, pixelIdx, channelIdx) := read_bytes 4 pixels 0 0 in
    let isStego := magic_eq stegoMagicBuffer MAGIC_SNIH in
    if isStego then Stego pixelIdx channelIdx else Unknown.

(** [decodeImageToFile(imageFile)], from the canvas on: [image] is what
    [getImageData] returns for the decoded file. *)
Definition decodeImageToFile (image : ImageData) : result DecodedAudio :=
  let pixels := data image in
  match detect pixels with
  | Standard => decodeStandardImage pixels (width image) (height image)
  | Stego pixelIdx channelIdx =>
      decodeStegoImage pixels (width image) (height image) pixelIdx channelIdx
  | Unknown => Err NoSonicData
  end.

End Service.

(** ** A platform for ASCII text *)

(** The code units of an ASCII string are its UTF-8 bytes. *)
Definition ascii_encode (s : string) : list Z :=
  map (fun c => Z.of_nat (nat_of_ascii c)) (list_ascii_of_string s).

Definition ascii_decode (b : list Z) : string :=
  string_of_list_ascii (map (fun x => ascii_of_nat (Z.to_nat x)) b).

(** [Math.ceil(x * Math.sqrt(d / a))] in exact arithmetic: the least
    [n >= 0] with [n * n * a >= x * x * d]. *)
Definition exact_ceil_times_sqrt (x d a : Z) : Z :=
  JS.ceil_sqrt (JS.ceil_div (x * x * d) a).

(** Strings are Rocq strings, coded bytewise; nothing decompresses;
    arithmetic is exact. *)
Definition ascii_platform : Platform :=
  {| text := string;
     TextEncoder_encode := ascii_encode;
     TextDecoder_decode := ascii_decode;
     gunzip := fun _ => None;
     ceil_times_sqrt := exact_ceil_times_sqrt |}.

(** A canvas is well formed: four bytes per pixel. *)
Definition image_ok (image : ImageData) : Prop :=
  0 <= width image /\ 0 <= height image /\
  len (data image) = 4 * (width image * height image) /\ bytes (data image).

(** A cover image is well formed: positive size, and drawing it on a
    canvas of any size gives four bytes per pixel. *)
Definition cover_ok (cover : ImageBitmap) : Prop :=
  0 < img_width cover /\ 0 < img_height cover /\
  forall w h, 0 <= w -> 0 <= h ->
    len (drawImage cover w h) = 4 * (w * h) /\ bytes (drawImage cover w h).

(** ** Reference descriptions of the two bit streams *)

(** The [k]-th bit of the linear stream of an image: the low bit of
    channel [k mod 3] of pixel [k / 3]. *)
Definition linear_bit (pixels : list Z) (k : Z) : Z :=
  Z.land (rd pixels (k / 3 * 4 + k mod 3)) 1.

(** The number spelled, low bit first, by the [n] bits of the linear
    stream from bit [k] on. *)
Fixpoint linear_value (pixels : list Z) (n : nat) (k : Z) : Z :=
  match n with
  | O => 0
  | S n' => linear_bit pixels k + 2 * linear_value pixels n' (k + 1)
  end.

(** The four bytes spelled by the first 32 bits of the linear stream. *)
Definition linear_magic (pixels : list Z) : list Z :=
  [linear_value pixels 8 0; linear_value pixels 8 8;
   linear_value pixels 8 16; linear_value pixels 8 24].

(** The four probe bytes: pixel0.R, pixel0.G, pixel0.B, pixel1.R. *)
Definition probe (pixels : list Z) : list Z :=
  [rd pixels 0; rd pixels 1; rd pixels 2; rd pixels 4].

(** Bit [p] of a payload, bytes in order and the low bit of a byte
    first; [false] past the end. *)
Definition pbit (payload : list Z) (p : Z) : bool :=
  Z.testbit (rd payload (p / 8)) (p mod 8).

(** The number spelled, low bit first, by the [n] payload bits from bit
    [p] on. *)
Fixpoint chunk (payload : list Z) (n : nat) (p : Z) : Z :=
  match n with
  | O => 0
  | S n' => Z.b2z (pbit payload p) + 2 * chunk payload n' (p + 1)
  end.

(** The first [k] bytes of a payload in a zeroed buffer of its length. *)
Definition partial (payload : list Z) (k : Z) : list Z :=
  take (Z.to_nat k) payload ++ replicate (Z.to_nat (len payload - k)) 0.

(** The state of the embedding loop once [p] payload bits are placed. *)
Definition embedded (p : Z) (pixels : list Z) : Embed :=
  {| e_byteIdx := p / 8; e_bitIdx := p mod 8; e_pixels := pixels |}.

(** The state of the extraction loop once it has read the first [p]
    bits of [payload]. *)
Definition extracted (payload : list Z) (p : Z) : Extract :=
  {| x_byteIdx := p / 8; x_bitIdx := p mod 8;
     x_currentByte := rd payload (p / 8) mod 2 ^ (p mod 8);
     x_payload := partial payload (p / 8) |}.

(** The magic SNIH as the 32-bit number its bytes spell, low byte first. *)
Definition SNIH_word : Z := 0x48494E53.

(** ** Sample inputs *)

Definition empty_mp3 : @File ascii_platform :=
  @Build_File ascii_platform [] "audio/mpeg"%string "a.mp3"%string.

Definition sample_file : @File ascii_platform :=
  @Build_File ascii_platform [1; 2; 3; 255; 0; 128] "audio/mpeg"%string "a.mp3"%string.

(** An 8 x 8 cover whose rendering at any size is a fixed pattern. *)
Definition sample_cover : ImageBitmap :=
  {| img_width := 8; img_height := 8;
     drawImage := fun w h => (fun i => (i * 37 + 11) mod 256) <$> seqZ 0 (4 * (w * h)) |}.

(** A white [w] x [h] canvas carrying a stego header that declares
    [payloadLen] bytes at [bpc] bits per channel. *)
Definition forged_image (w h payloadLen bpc : Z) : ImageData :=
  {| width := w; height := h;
     data := write_header (headerBits payloadLen bpc) 0 0
               (replicate (Z.to_nat (4 * (w * h))) 255) |}.

(** A single black pixel. *)
Definition black_pixel : ImageData :=
  {| width := 1; height := 1; data := [0; 0; 0; 255] |}.

(** What the extraction loop keeps true of its state for a declared
    length [payloadLen]: the buffer has that length, the write position
    is inside it, and nothing is stored from the write position on. *)
Definition zero_padded (payloadLen : Z) (st : Extract) : Prop :=
  len (x_payload st) = payloadLen /\
  0 <= x_byteIdx st <= payloadLen /\
  forall i, x_byteIdx st <= i -> rd (x_payload st) i = 0.

(** * Properties *)

(** ** Bit-level facts *)

Lemma mask_ones bpc : Z.shiftl 1 bpc - 1 = Z.ones bpc.
Proof. reflexivity. Qed.

Lemma land_mask x bpc : 0 <= bpc -> Z.land x (Z.shiftl 1 bpc - 1) = x mod 2 ^ bpc.
Proof. intros. rewrite mask_ones. now apply Z.land_ones. Qed.

Lemma substitute_arith o bits bpc :
  0 <= bpc -> 0 <= bits < 2 ^ bpc ->
  substitute o bits bpc = o - o mod 2 ^ bpc + bits.
Proof.
  intros Hb Hbits. unfold substitute. rewrite mask_ones.
  rewrite <- Z.ldiff_land, Z.ldiff_ones_r by lia.
  assert (Hdisj : Z.land (Z.shiftl (Z.shiftr o bpc) bpc) bits = 0).
  { destruct (Z.eq_dec bits 0) as [-> | Hnz]; [apply Z.land_0_r |].
    apply Z.bits_inj'. intros n Hn. rewrite Z.land_spec, Z.bits_0.
    destruct (Z.ltb_spec n bpc).
    - rewrite Z.shiftl_spec_low by lia. reflexivity.
    - rewrite (Z.bits_above_log2 bits n); [apply andb_false_r | lia |].
      apply Z.lt_le_trans with bpc; [|lia].
      apply Z.log2_lt_pow2; lia. }
  rewrite <- Z.lxor_lor, <- Z.add_nocarry_lxor by exact Hdisj.
  rewrite Z.shiftl_mul_pow2, Z.shiftr_div_pow2 by lia.
  pose proof (Z.div_mod o (2 ^ bpc)). lia.
Qed.

Lemma small_bpc (bpc : Z) :
  1 <= bpc <= 7 ->
  bpc = 1 \/ bpc = 2 \/ bpc = 3 \/ bpc = 4 \/ bpc = 5 \/ bpc = 6 \/ bpc = 7.
Proof. lia. Qed.

Ltac each_bpc H :=
  apply small_bpc in H;
  destruct H as [-> | [-> | [-> | [-> | [-> | [-> | ->]]]]]].

(** The OPAP result, for a substituted value, in arithmetic form. *)
Lemma applyOPAP_cases o m bpc :
  applyOPAP o m bpc = m - 2 ^ bpc /\ 2 ^ (bpc - 1) < m - o /\ 0 <= m - 2 ^ bpc \/
  applyOPAP o m bpc = m + 2 ^ bpc /\ m - o < - 2 ^ (bpc - 1) /\ m + 2 ^ bpc <= 255 /\
    ~ (2 ^ (bpc - 1) < m - o /\ 0 <= m - 2 ^ bpc) \/
  applyOPAP o m bpc = m /\
    ~ (2 ^ (bpc - 1) < m - o /\ 0 <= m - 2 ^ bpc) /\
    ~ (m - o < - 2 ^ (bpc - 1) /\ m + 2 ^ bpc <= 255).
Proof.
  unfold applyOPAP. rewrite !Z.shiftl_1_l.
  destruct (Z.ltb_spec (2 ^ (bpc - 1)) (m - o));
    destruct (Z.leb_spec 0 (m - 2 ^ bpc));
    destruct (Z.ltb_spec (m - o) (- 2 ^ (bpc - 1)));
    destruct (Z.leb_spec (m + 2 ^ bpc) 255); simpl; lia.
Qed.

(** C5: for a byte [original], [1 <= bpc <= 7] and [modified] obtained by
    substituting a [bpc]-bit value into the low bits of [original], the
    OPAP result has the low [bpc] bits of [modified], is a byte, is one
    of [modified], [modified - 2^bpc], [modified + 2^bpc], and no such
    candidate inside [0,255] is nearer to [original]. *)
Theorem applyOPAP_low_bits_nearest (original bits bpc : Z) :
  0 <= original <= 255 -> 1 <= bpc <= 7 -> 0 <= bits < 2 ^ bpc ->
  let mask := Z.shiftl 1 bpc - 1 in
  let modified := substitute original bits bpc in
  let out := applyOPAP original modified bpc in
  Z.land out mask = Z.land modified mask /\
  0 <= out <= 255 /\
  (out = modified \/ out = modified - 2 ^ bpc \/ out = modified + 2 ^ bpc) /\
  forall c, c = modified \/ c = modified - 2 ^ bpc \/ c = modified + 2 ^ bpc ->
            0 <= c <= 255 -> Z.abs (out - original) <= Z.abs (c - original).
Proof.
  intros Ho Hb Hbits mask modified out. subst mask out.
  assert (Hm : modified = original - original mod 2 ^ bpc + bits)
    by (apply substitute_arith; lia).
  rewrite !land_mask by lia.
  clearbody modified.
  destruct (applyOPAP_cases original modified bpc) as [H | [H | H]];
    destruct H as [-> H]; clear - Ho Hb Hbits Hm H;
    each_bpc Hb; simpl in *;
    repeat split; intros; Z.div_mod_to_equations; lia.
Qed.

Lemma applyOPAP_low_bits_nearest_witness :
  let out := applyOPAP 200 (substitute 200 7 3) 3 in
  Z.land out 7 = 7 /\ out = 199.
Proof.
  pose proof (applyOPAP_low_bits_nearest 200 7 3
                ltac:(lia) ltac:(lia) ltac:(simpl; lia)) as [H _].
  split; [exact H | reflexivity].
Defined.

(** ** Arrays *)

Lemma len_nonneg a : 0 <= len a.
Proof. unfold len. lia. Qed.

Lemma len_wr a i v : len (wr a i v) = len a.
Proof. unfold wr, len. destruct (i <? 0); [done|]. by rewrite length_insert. Qed.

Lemma length_wr a i v : length (wr a i v) = length a.
Proof. unfold wr. destruct (i <? 0); [done|]. by rewrite length_insert. Qed.

Lemma rd_lookup a i x : 0 <= i -> a !! Z.to_nat i = Some x -> rd a i = x.
Proof.
  intros Hi Hx. unfold rd. destruct (Z.ltb_spec i 0); [lia|]. by rewrite Hx.
Qed.

Lemma lookup_rd a i : 0 <= i < len a -> a !! Z.to_nat i = Some (rd a i).
Proof.
  intros Hi. unfold rd, len in *. destruct (Z.ltb_spec i 0); [lia|].
  destruct (lookup_lt_is_Some_2 a (Z.to_nat i)) as [x Hx]; [lia|]. by rewrite Hx.
Qed.

Lemma rd_ge a i : len a <= i -> rd a i = 0.
Proof.
  intros Hi. unfold rd, len in *. destruct (i <? 0); [done|].
  rewrite lookup_ge_None_2; [done | lia].
Qed.

Lemma rd_wr_eq a i v : 0 <= i < len a -> rd (wr a i v) i = v.
Proof.
  intros Hi. apply rd_lookup; [lia|]. unfold wr, len in *.
  destruct (Z.ltb_spec i 0); [lia|]. apply list_lookup_insert_eq. lia.
Qed.

Lemma rd_wr_ne a i j v : i <> j -> rd (wr a i v) j = rd a j.
Proof.
  intros Hne. unfold rd, wr.
  destruct (Z.ltb_spec j 0); [done|]. destruct (Z.ltb_spec i 0); [done|].
  rewrite list_lookup_insert_ne; [done | lia].
Qed.

Lemma rd_app_l a b i : i < len a -> rd (a ++ b) i = rd a i.
Proof.
  intros Hi. unfold rd, len in *. destruct (Z.ltb_spec i 0); [done|].
  rewrite lookup_app_l; [done | lia].
Qed.

Lemma rd_app_r a b i : len a <= i -> rd (a ++ b) i = rd b (i - len a).
Proof.
  intros Hi. pose proof (len_nonneg a). unfold rd.
  destruct (Z.ltb_spec i 0); [lia|]. destruct (Z.ltb_spec (i - len a) 0); [lia|].
  unfold len in *. rewrite lookup_app_r by lia. do 2 f_equal. lia.
Qed.

Lemma rd_bytes a i : bytes a -> 0 <= rd a i < 256.
Proof.
  intros Ha. unfold rd. destruct (i <? 0); [lia|].
  destruct (a !! Z.to_nat i) as [x|] eqn:Hx; simpl; [|lia].
  unfold bytes in Ha. rewrite Forall_lookup in Ha. eauto.
Qed.

Lemma len_app a b : len (a ++ b) = len a + len b.
Proof. unfold len. rewrite length_app. lia. Qed.

(** ** Deterministic pixel shuffle *)

Lemma random_range seed : 0 <= (random seed).2 < 2 ^ 32.
Proof. unfold random. simpl. unfold JS.ToUint32. apply Z.mod_pos_bound. lia. Qed.

Lemma random_index_range k i :
  0 <= k < 2 ^ 32 -> 0 <= i -> 0 <= random_index k i <= i.
Proof.
  intros Hk Hi. unfold random_index. split.
  - apply Z.div_pos; nia.
  - apply Z.lt_succ_r. apply Z.div_lt_upper_bound; nia.
Qed.

Lemma swap_Permutation a i j :
  0 <= i < len a -> 0 <= j < len a -> swap a i j ≡ₚ a.
Proof.
  intros Hi Hj. unfold swap, wr.
  destruct (Z.ltb_spec i 0); [lia|]. destruct (Z.ltb_spec j 0); [lia|].
  apply Permutation_insert_swap; by apply lookup_rd.
Qed.

Lemma len_swap a i j : len (swap a i j) = len a.
Proof. unfold swap. by rewrite !len_wr. Qed.

Lemma shuffle_from_Permutation i seed a :
  Z.of_nat i < len a -> shuffle_from i seed a ≡ₚ a.
Proof.
  revert seed a. induction i as [|i IH]; intros seed a Hi; [done|].
  cbn [shuffle_from]. pose proof (random_range seed) as Hk.
  destruct (random seed) as [seed' k]. simpl in Hk.
  pose proof (random_index_range k (Z.of_nat (S i)) Hk ltac:(lia)) as Hj.
  rewrite IH by (rewrite len_swap; lia).
  apply swap_Permutation; lia.
Qed.

Lemma getShuffledIndices_Ok N R :
  0 <= R <= N ->
  exists indices,
    getShuffledIndices N R = Ok indices /\ indices ≡ₚ seqZ R (N - R).
Proof.
  intros HR. unfold getShuffledIndices.
  destruct (Z.ltb_spec (N - R) 0) as [|_]; [lia|].
  eexists. split; [reflexivity|].
  destruct (Z.eq_dec N R) as [->|].
  - by replace (R - R - 1) with (-1) by lia.
  - apply shuffle_from_Permutation. unfold len. rewrite length_seqZ. lia.
Qed.



(** ** Payload framing and parsing *)

Lemma len_cons x a : len (x :: a) = 1 + len a.
Proof. unfold len. simpl length. lia. Qed.

Lemma len_nil : len [] = 0.
Proof. reflexivity. Qed.

Ltac len_simpl := rewrite ?len_app, ?len_cons, ?len_nil in *.

Lemma slice_at pre mid post s e :
  s = len pre -> e = s + len mid -> slice (pre ++ mid ++ post) s e = mid.
Proof.
  intros -> ->. unfold slice, len.
  replace (Z.to_nat (Z.of_nat (length pre) + Z.of_nat (length mid)
                     - Z.of_nat (length pre))) with (length mid) by lia.
  rewrite Nat2Z.id, drop_app_length. apply take_app_length.
Qed.

Lemma slice_at_end pre mid s e :
  s = len pre -> e = s + len mid -> slice (pre ++ mid) s e = mid.
Proof.
  intros. rewrite <- (app_nil_r mid) at 1. by apply slice_at.
Qed.

Lemma rd_at pre x post i : i = len pre -> rd (pre ++ x :: post) i = x.
Proof.
  intros ->. rewrite rd_app_r by lia. by rewrite Z.sub_diag.
Qed.

Lemma land_255 x : Z.land x 255 = x mod 256.
Proof. change 255 with (Z.ones 8). by rewrite Z.land_ones. Qed.

Lemma getUint32_setUint32 n :
  0 <= n < 2 ^ 32 -> getUint32 (setUint32 n) = Ok n.
Proof.
  intros Hn. unfold getUint32, setUint32, JS.ToUint32. simpl.
  unfold rd. simpl. rewrite !land_255, !Z.shiftr_div_pow2 by lia.
  f_equal. Z.div_mod_to_equations. lia.
Qed.

Lemma len_setUint32 n : len (setUint32 n) = 4.
Proof. reflexivity. Qed.

Lemma wrap8_byte x : 0 <= x < 256 -> JS.wrap8 x = x.
Proof. intros. unfold JS.wrap8. by apply Z.mod_small. Qed.

Lemma clamp8_byte x : 0 <= x <= 255 -> JS.clamp8 x = x.
Proof. intros. unfold JS.clamp8. lia. Qed.

Section Payload.
Context `{Platform}.

(** Parsing a frame that declares [n] data bytes: the data is what is
    there of these [n] bytes, whether the buffer goes on after them (the
    padding of a noise image) or ends before them (a partial read), and
    it is decompressed when the magic is SNIZ. *)
Lemma parsePayload_frame_magic (magic : list Z) (n : Z) (mime name rest : list Z) :
  magic = MAGIC_SNIC \/ magic = MAGIC_SNIZ ->
  0 <= n < 2 ^ 32 -> len mime <= 255 -> len name <= 255 ->
  parsePayload (magic ++ setUint32 n ++ [len mime] ++ mime
                  ++ [len name] ++ name ++ rest) =
    (fileData <- (if magic_eq magic MAGIC_SNIZ
                  then decompressData (take (Z.to_nat n) rest)
                  else Ok (take (Z.to_nat n) rest)) ;;
     Ok {| blob := fileData;
           fileName := TextDecoder_decode name;
           fileType := TextDecoder_decode mime |}).
Proof.
  intros Hmagic4 Hd Hm Hn.
  assert (Hm4 : len magic = 4) by (destruct Hmagic4 as [-> | ->]; reflexivity).
  assert (Hok : negb (magic_eq magic MAGIC_SNIC) && negb (magic_eq magic MAGIC_SNIZ) = false)
    by (destruct Hmagic4 as [-> | ->]; reflexivity).
  clear Hmagic4.
  pose proof (len_nonneg mime). pose proof (len_nonneg name).
  pose proof (len_nonneg rest).
  unfold parsePayload.
  set (buffer := magic ++ _).
  assert (Hlen : len buffer = 10 + len mime + len name + len rest).
  { subst buffer. len_simpl. rewrite len_setUint32. lia. }
  assert (Hmagic : slice buffer 0 4 = magic).
  { subst buffer. apply (slice_at []); [done | lia]. }
  rewrite Hmagic, Hok.
  assert (Hsize : slice buffer (0 + 4) (0 + 4 + 4) = setUint32 n).
  { subst buffer. apply (slice_at magic); [lia | by rewrite len_setUint32]. }
  rewrite Hsize, getUint32_setUint32 by lia. cbn [bind].
  destruct (Z.ltb_spec (len buffer) (0 + 4 + 4 + 1)) as [|_]; [lia|].
  assert (HmimeLen : rd buffer (0 + 4 + 4) = len mime).
  { subst buffer. rewrite app_assoc. apply rd_at. len_simpl. rewrite len_setUint32. lia. }
  rewrite HmimeLen.
  destruct (Z.ltb_spec (len buffer) (0 + 4 + 4 + 1 + len mime)) as [|_]; [lia|].
  assert (Hmime : slice buffer (0 + 4 + 4 + 1) (0 + 4 + 4 + 1 + len mime) = mime).
  { subst buffer.
    rewrite (app_assoc magic), (app_assoc _ [len mime]).
    apply slice_at; [|done]. len_simpl. rewrite len_setUint32. lia. }
  rewrite Hmime.
  destruct (Z.ltb_spec (len buffer) (0 + 4 + 4 + 1 + len mime + 1)) as [|_]; [lia|].
  assert (HnameLen : rd buffer (0 + 4 + 4 + 1 + len mime) = len name).
  { subst buffer.
    rewrite (app_assoc magic), (app_assoc _ [len mime]), (app_assoc _ mime).
    apply rd_at. len_simpl. rewrite len_setUint32. lia. }
  rewrite HnameLen.
  destruct (Z.ltb_spec (len buffer) (0 + 4 + 4 + 1 + len mime + 1 + len name))
    as [|_]; [lia|].
  assert (Hname : slice buffer (0 + 4 + 4 + 1 + len mime + 1)
                    (0 + 4 + 4 + 1 + len mime + 1 + len name) = name).
  { subst buffer.
    rewrite (app_assoc magic), (app_assoc _ [len mime]), (app_assoc _ mime),
      (app_assoc _ [len name]).
    apply slice_at; [|done]. len_simpl. rewrite len_setUint32. lia. }
  rewrite Hname.
  assert (Hdata : slice buffer (0 + 4 + 4 + 1 + len mime + 1 + len name)
                    (Z.min (0 + 4 + 4 + 1 + len mime + 1 + len name + n)
                           (len buffer)) = take (Z.to_nat n) rest).
  { destruct (Z.le_gt_cases n (len rest)) as [Hfull | Hshort].
    - rewrite Z.min_l by lia. subst buffer.
      rewrite <- (take_drop (Z.to_nat n) rest) at 1.
      rewrite (app_assoc magic), (app_assoc _ [len mime]), (app_assoc _ mime),
        (app_assoc _ [len name]), (app_assoc _ name).
      assert (Htake : len (take (Z.to_nat n) rest) = n).
      { unfold len in *. rewrite length_take. lia. }
      apply slice_at; [| rewrite Htake; done]. len_simpl. rewrite len_setUint32. lia.
    - rewrite Z.min_r by lia. rewrite take_ge by (unfold len in *; lia).
      subst buffer.
      rewrite (app_assoc magic), (app_assoc _ [len mime]), (app_assoc _ mime),
        (app_assoc _ [len name]), (app_assoc _ name).
      apply slice_at_end; len_simpl; rewrite len_setUint32; lia. }
  rewrite Hdata. reflexivity.
Qed.

Lemma parsePayload_frame (n : Z) (mime name rest : list Z) :
  0 <= n < 2 ^ 32 -> len mime <= 255 -> len name <= 255 ->
  parsePayload (MAGIC_SNIC ++ setUint32 n ++ [len mime] ++ mime
                  ++ [len name] ++ name ++ rest) =
    Ok {| blob := take (Z.to_nat n) rest;
          fileName := TextDecoder_decode name;
          fileType := TextDecoder_decode mime |}.
Proof. intros. by rewrite parsePayload_frame_magic; [| left | ..]. Qed.

(** Parsing a framed payload, followed by anything, gives the file
    back (as far as the text decoder inverts the text encoder). *)
Lemma parsePayload_createPayload (file : File) (pad : list Z) :
  len (file_data file) < 2 ^ 32 ->
  len (TextEncoder_encode (file_type file)) <= 255 ->
  len (TextEncoder_encode (file_name file)) <= 255 ->
  parsePayload (createPayload file ++ pad) =
    Ok {| blob := file_data file;
          fileName := TextDecoder_decode (TextEncoder_encode (file_name file));
          fileType := TextDecoder_decode (TextEncoder_encode (file_type file)) |}.
Proof.
  intros Hd Hm Hn. unfold createPayload.
  pose proof (len_nonneg (TextEncoder_encode (file_type file))).
  pose proof (len_nonneg (TextEncoder_encode (file_name file))).
  pose proof (len_nonneg (file_data file)).
  rewrite !wrap8_byte by lia. rewrite <- !app_assoc.
  rewrite parsePayload_frame by lia.
  unfold len. rewrite Nat2Z.id, take_app_length. reflexivity.
Qed.

End Payload.

(** ** Noise codec *)

Lemma ceil_div_ge a b : 0 < b -> a <= b * JS.ceil_div a b.
Proof. intros. unfold JS.ceil_div. Z.div_mod_to_equations. nia. Qed.

Lemma ceil_div_lt a b : 0 < b -> b * JS.ceil_div a b < a + b.
Proof. intros. unfold JS.ceil_div. Z.div_mod_to_equations. nia. Qed.

Lemma ceil_sqrt_ge n : 0 <= n -> n <= JS.ceil_sqrt n * JS.ceil_sqrt n.
Proof.
  intros Hn. unfold JS.ceil_sqrt. pose proof (Z.sqrt_spec n Hn) as Hs.
  cbv zeta in Hs. destruct (Z.eqb_spec (Z.sqrt n * Z.sqrt n) n); lia.
Qed.

Lemma ceil_sqrt_nonneg n : 0 <= JS.ceil_sqrt n.
Proof.
  unfold JS.ceil_sqrt. pose proof (Z.sqrt_nonneg n).
  destruct (Z.sqrt n * Z.sqrt n =? n); lia.
Qed.

Lemma ceil_sqrt_pos n : 1 <= n -> 1 <= JS.ceil_sqrt n.
Proof.
  intros Hn. pose proof (ceil_sqrt_ge n ltac:(lia)).
  pose proof (ceil_sqrt_nonneg n). nia.
Qed.

Lemma noise_size_covers length :
  10 <= length ->
  let '(totalPixels, width, height) := noise_size length in
  length <= 3 * (width * height) /\ 2 <= width * height.
Proof.
  intros Hl. unfold noise_size.
  pose proof (ceil_div_ge length 3 ltac:(lia)) as Ht.
  set (t := JS.ceil_div length 3) in *.
  pose proof (ceil_sqrt_pos t ltac:(lia)) as Hw.
  pose proof (ceil_div_ge t (JS.ceil_sqrt t) ltac:(lia)). lia.
Qed.

Lemma next_byte_lt buf idx :
  idx < len buf -> next_byte buf idx = (rd buf idx, idx + 1).
Proof. intros. unfold next_byte. by destruct (Z.ltb_spec idx (len buf)); [|lia]. Qed.

Lemma next_byte_ge buf idx :
  len buf <= idx -> next_byte buf idx = (0, idx).
Proof. intros. unfold next_byte. by destruct (Z.ltb_spec idx (len buf)); [lia|]. Qed.

Lemma drop_rd buf idx :
  0 <= idx < len buf ->
  drop (Z.to_nat idx) buf = rd buf idx :: drop (Z.to_nat (idx + 1)) buf.
Proof.
  intros Hi. replace (Z.to_nat (idx + 1)) with (S (Z.to_nat idx)) by lia.
  apply drop_S. by apply lookup_rd.
Qed.

Lemma drop_len buf idx : len buf <= idx -> drop (Z.to_nat idx) buf = [].
Proof. intros. apply drop_ge. unfold len in *. lia. Qed.

Lemma standard_bytes_shift n i r g b a pixels :
  0 <= i ->
  standard_bytes n (i + 1) (r :: g :: b :: a :: pixels) = standard_bytes n i pixels.
Proof.
  revert i. induction n as [|n IH]; intros i Hi; [done|].
  cbn [standard_bytes].
  rewrite <- (IH (i + 1)) by lia.
  change (r :: g :: b :: a :: pixels) with ([r; g; b; a] ++ pixels).
  rewrite !rd_app_r by (change (len [r; g; b; a]) with 4; lia).
  change (len [r; g; b; a]) with 4.
  repeat f_equal; lia.
Qed.

(** The bytes recovered from a noise image start with the bytes that
    were written. *)
Lemma standard_bytes_noise_pixels n buf idx :
  bytes buf -> 0 <= idx <= len buf -> len buf - idx <= 3 * Z.of_nat n ->
  exists pad,
    standard_bytes n 0 (noise_pixels n buf idx) = drop (Z.to_nat idx) buf ++ pad.
Proof.
  intros Hbuf. revert idx. induction n as [|n IH]; intros idx Hidx Hn.
  { exists []. rewrite drop_len by lia. done. }
  assert (Hb : forall i, JS.wrap8 (JS.clamp8 (rd buf i)) = rd buf i).
  { intros i. pose proof (rd_bytes buf i Hbuf).
    rewrite clamp8_byte, wrap8_byte; lia. }
  cbn [noise_pixels].
  destruct (Z.lt_ge_cases idx (len buf)) as [H1|H1].
  2:{ rewrite !next_byte_ge by lia. destruct (IH idx) as [pad Hpad]; [lia..|].
      cbn [standard_bytes]. rewrite (standard_bytes_shift n 0) by lia.
      rewrite Hpad, !drop_len by lia. eexists. reflexivity. }
  rewrite (next_byte_lt buf idx) by lia.
  destruct (Z.lt_ge_cases (idx + 1) (len buf)) as [H2|H2].
  2:{ rewrite !next_byte_ge by lia. destruct (IH (idx + 1)) as [pad Hpad]; [lia..|].
      cbn [standard_bytes]. rewrite (standard_bytes_shift n 0) by lia.
      rewrite Hpad, (drop_rd buf idx), !drop_len by lia.
      change (rd (?x :: _) (0 * 4)) with x. rewrite Hb.
      eexists. reflexivity. }
  rewrite (next_byte_lt buf (idx + 1)) by lia.
  destruct (Z.lt_ge_cases (idx + 1 + 1) (len buf)) as [H3|H3].
  2:{ rewrite !next_byte_ge by lia. destruct (IH (idx + 1 + 1)) as [pad Hpad]; [lia..|].
      cbn [standard_bytes]. rewrite (standard_bytes_shift n 0) by lia.
      rewrite Hpad, (drop_rd buf idx), (drop_rd buf (idx + 1)), !drop_len by lia.
      change (rd (?x :: _) (0 * 4)) with x.
      change (rd (_ :: ?x :: _) (0 * 4 + 1)) with x. rewrite !Hb.
      eexists. reflexivity. }
  rewrite (next_byte_lt buf (idx + 1 + 1)) by lia.
  destruct (IH (idx + 1 + 1 + 1)) as [pad Hpad]; [lia..|].
  cbn [standard_bytes]. rewrite (standard_bytes_shift n 0) by lia.
  rewrite Hpad, (drop_rd buf idx), (drop_rd buf (idx + 1)),
    (drop_rd buf (idx + 1 + 1)) by lia.
  change (rd (?x :: _) (0 * 4)) with x.
  change (rd (_ :: ?x :: _) (0 * 4 + 1)) with x.
  change (rd (_ :: _ :: ?x :: _) (0 * 4 + 2)) with x. rewrite !Hb.
  exists pad. reflexivity.
Qed.

(** The first two pixels of a noise image. *)
Lemma noise_pixels_head n buf :
  4 <= len buf -> (2 <= n)%nat ->
  exists rest,
    noise_pixels n buf 0 =
      JS.clamp8 (rd buf 0) :: JS.clamp8 (rd buf 1) :: JS.clamp8 (rd buf 2) :: 255
        :: JS.clamp8 (rd buf 3) :: rest.
Proof.
  intros Hl Hn. destruct n as [|[|n]]; [lia..|].
  cbn [noise_pixels]. rewrite (next_byte_lt buf 0) by lia.
  rewrite (next_byte_lt buf (0 + 1)) by lia.
  rewrite (next_byte_lt buf (0 + 1 + 1)) by lia.
  rewrite (next_byte_lt buf (0 + 1 + 1 + 1)) by lia.
  destruct (next_byte buf (0 + 1 + 1 + 1 + 1)) as [g i2].
  destruct (next_byte buf i2) as [b i3].
  eexists. reflexivity.
Qed.

Lemma bytes_setUint32 n : bytes (setUint32 n).
Proof.
  unfold setUint32, bytes. repeat constructor; rewrite land_255; try apply Z.mod_pos_bound; lia.
Qed.

Lemma bytes_app a b : bytes a -> bytes b -> bytes (a ++ b).
Proof. unfold bytes. apply Forall_app_2. Qed.

Lemma bytes_MAGIC_SNIC : bytes MAGIC_SNIC.
Proof. unfold bytes, MAGIC_SNIC. repeat constructor; lia. Qed.

Section Noise.
Context `{Platform}.

Lemma bytes_createPayload (file : File) :
  bytes (file_data file) ->
  bytes (TextEncoder_encode (file_type file)) ->
  bytes (TextEncoder_encode (file_name file)) ->
  bytes (createPayload file).
Proof.
  intros Hd Hm Hn. unfold createPayload.
  repeat apply bytes_app; try done;
    try apply bytes_MAGIC_SNIC; try apply bytes_setUint32;
    repeat constructor; unfold JS.wrap8; try apply Z.mod_pos_bound; lia.
Qed.

Lemma len_createPayload (file : File) :
  len (createPayload file) =
    10 + len (TextEncoder_encode (file_type file))
       + len (TextEncoder_encode (file_name file)) + len (file_data file).
Proof.
  unfold createPayload. len_simpl. rewrite len_setUint32.
  unfold MAGIC_SNIC. len_simpl. lia.
Qed.

Lemma createPayload_magic (file : File) :
  exists rest, createPayload file = 0x53 :: 0x4E :: 0x49 :: 0x43 :: rest.
Proof. unfold createPayload, MAGIC_SNIC. simpl. eexists. reflexivity. Qed.


End Noise.

(** ** The linear header stream *)

Lemma land_1 x : Z.land x 1 = x mod 2.
Proof. change 1 with (Z.ones 1) at 1. by rewrite Z.land_ones. Qed.

Lemma bit_of_shiftr x b : 0 <= b -> Z.land (Z.shiftr x b) 1 = Z.b2z (Z.testbit x b).
Proof.
  intros Hb. rewrite land_1, Z.shiftr_div_pow2 by lia. symmetry.
  by apply Z.testbit_spec'.
Qed.

Lemma b2z_range (b : bool) : 0 <= Z.b2z b <= 1.
Proof. destruct b; simpl; lia. Qed.

Lemma testbit_small v b : 0 <= v < 2 ^ b -> Z.testbit v b = false.
Proof.
  intros Hv. destruct (Z.eq_dec v 0) as [->|]; [apply Z.bits_0|].
  apply Z.bits_above_log2; [lia|]. apply Z.log2_lt_pow2; lia.
Qed.

Lemma lor_bit v bit b :
  0 <= b -> 0 <= v < 2 ^ b -> 0 <= bit <= 1 ->
  Z.lor v (Z.shiftl bit b) = v + 2 ^ b * bit.
Proof.
  intros Hb Hv Hbit. assert (bit = 0 \/ bit = 1) as [-> | ->] by lia.
  - rewrite Z.shiftl_0_l, Z.lor_0_r. lia.
  - rewrite Z.shiftl_1_l, Z.mul_1_r.
    assert (Hdisj : Z.land v (2 ^ b) = 0).
    { apply Z.bits_inj'. intros n Hn.
      rewrite Z.land_spec, Z.bits_0, Z.pow2_bits_eqb by lia.
      destruct (Z.eqb_spec b n) as [<-|]; [|apply andb_false_r].
      by rewrite testbit_small. }
    by rewrite <- Z.lxor_lor, <- Z.add_nocarry_lxor.
Qed.

Lemma linear_bit_range pixels k : 0 <= linear_bit pixels k <= 1.
Proof. unfold linear_bit. rewrite land_1. Z.div_mod_to_equations. lia. Qed.

Lemma linear_value_range pixels n k : 0 <= linear_value pixels n k < 2 ^ Z.of_nat n.
Proof.
  revert k. induction n as [|n IH]; intros k; [simpl; lia|].
  cbn [linear_value]. pose proof (linear_bit_range pixels k). specialize (IH (k + 1)).
  rewrite Nat2Z.inj_succ, Z.pow_succ_r by lia. lia.
Qed.

Lemma read_bits_linear n b pixels k val :
  0 <= k -> 0 <= b -> 0 <= val < 2 ^ b ->
  read_bits n b pixels (k / 3) (k mod 3) val =
    (val + 2 ^ b * linear_value pixels n k,
     (k + Z.of_nat n) / 3, (k + Z.of_nat n) mod 3).
Proof.
  revert b k val. induction n as [|n IH]; intros b k val Hk Hb Hval.
  { cbn [read_bits linear_value]. rewrite Z.add_0_r. do 2 f_equal. lia. }
  cbn [read_bits linear_value]. fold (linear_bit pixels k).
  pose proof (linear_bit_range pixels k) as Hbit.
  rewrite lor_bit by lia.
  assert (Hnext : (if 2 <? k mod 3 + 1
    then read_bits n (b + 1) pixels (k / 3 + 1) 0 (val + 2 ^ b * linear_bit pixels k)
    else read_bits n (b + 1) pixels (k / 3) (k mod 3 + 1) (val + 2 ^ b * linear_bit pixels k))
    = read_bits n (b + 1) pixels ((k + 1) / 3) ((k + 1) mod 3)
        (val + 2 ^ b * linear_bit pixels k)).
  { destruct (Z.ltb_spec 2 (k mod 3 + 1)); f_equal; Z.div_mod_to_equations; lia. }
  assert (Hpow : 2 ^ (b + 1) = 2 * 2 ^ b) by (rewrite Z.pow_add_r; lia).
  rewrite Hnext, IH by nia.
  rewrite Hpow, Nat2Z.inj_succ.
  f_equal; [f_equal|]; [ring | f_equal; lia | f_equal; lia].
Qed.

Lemma readByte_linear pixels k :
  0 <= k ->
  readByte pixels (k / 3) (k mod 3) =
    (linear_value pixels 8 k, (k + 8) / 3, (k + 8) mod 3).
Proof.
  intros Hk. unfold readByte. rewrite read_bits_linear by lia.
  f_equal. f_equal. lia.
Qed.

Lemma read_bytes_linear n pixels k :
  0 <= k ->
  read_bytes n pixels (k / 3) (k mod 3) =
    ((fun i => linear_value pixels 8 (k + 8 * i)) <$> seqZ 0 (Z.of_nat n),
     (k + 8 * Z.of_nat n) / 3, (k + 8 * Z.of_nat n) mod 3).
Proof.
  revert k. induction n as [|n IH]; intros k Hk.
  { cbn [read_bytes]. rewrite Z.add_0_r. reflexivity. }
  cbn [read_bytes]. rewrite readByte_linear, IH by lia.
  rewrite (seqZ_cons 0 (Z.of_nat (S n))) by lia. cbn [fmap list_fmap].
  pose proof (linear_value_range pixels 8 k) as Hr.
  change (2 ^ Z.of_nat 8) with 256 in Hr. rewrite wrap8_byte by lia.
  f_equal; [f_equal|]; [|f_equal; lia | f_equal; lia].
  rewrite Z.add_0_r. f_equal.
  replace (Z.pred (Z.of_nat (S n))) with (Z.of_nat n) by lia.
  rewrite <- (fmap_add_seqZ 1 0). replace (1 + 0) with (Z.succ 0) by lia.
  rewrite <- list_fmap_compose. apply list_fmap_ext. intros _ i _.
  unfold compose. f_equal. lia.
Qed.

Lemma read_magic_linear pixels :
  read_bytes 4 pixels 0 0 = (linear_magic pixels, 10, 2).
Proof. exact (read_bytes_linear 4 pixels 0 ltac:(lia)). Qed.

Lemma read_stego_header_linear pixels :
  read_stego_header pixels 10 2 =
    (payloadLen <- getUint32 [linear_value pixels 8 32; linear_value pixels 8 40;
                              linear_value pixels 8 48; linear_value pixels 8 56] ;;
     Ok (payloadLen, linear_value pixels 8 64)).
Proof.
  unfold read_stego_header.
  change (read_bytes 4 pixels 10 2) with (read_bytes 4 pixels (32 / 3) (32 mod 3)).
  rewrite (read_bytes_linear 4 pixels 32 ltac:(lia)).
  change ((32 + 8 * Z.of_nat 4) / 3) with (64 / 3).
  change ((32 + 8 * Z.of_nat 4) mod 3) with (64 mod 3).
  rewrite (readByte_linear pixels 64 ltac:(lia)). reflexivity.
Qed.

(** ** Format detection *)

Lemma magic_eq_true a b c d a' b' c' d' :
  magic_eq [a; b; c; d] [a'; b'; c'; d'] = true <->
  [a; b; c; d] = [a'; b'; c'; d'].
Proof.
  unfold magic_eq. cbn [seq forallb lookup list_lookup].
  rewrite !andb_true_iff, !bool_decide_eq_true. split.
  - intros (?&?&?&?&_). congruence.
  - intros Heq. inversion Heq. done.
Qed.

Lemma magic_eq_false a b c d a' b' c' d' :
  [a; b; c; d] <> [a'; b'; c'; d'] ->
  magic_eq [a; b; c; d] [a'; b'; c'; d'] = false.
Proof.
  intros Hne. apply not_true_is_false. by rewrite magic_eq_true.
Qed.

Lemma detect_probe pixels :
  bytes pixels ->
  detect pixels =
    if magic_eq (probe pixels) MAGIC_SNIC || magic_eq (probe pixels) MAGIC_SNIZ
    then Standard
    else if magic_eq (linear_magic pixels) MAGIC_SNIH then Stego 10 2 else Unknown.
Proof.
  intros Hb. unfold detect, probe.
  rewrite !wrap8_byte by (apply rd_bytes, Hb).
  by rewrite read_magic_linear.
Qed.

Section Detector.
Context `{Platform}.

(** The two header checks, as [decodeStegoImage] makes them. *)
Lemma check_stego_header_passes w h payloadLen bpc :
  check_stego_header w h payloadLen bpc = Ok tt <->
  1 <= bpc <= 8 /\ payloadLen <= w * h * 3 * bpc.
Proof.
  unfold check_stego_header.
  destruct (Z.ltb_spec bpc 1); destruct (Z.ltb_spec 8 bpc); cbn [orb];
    try (split; [discriminate | lia]).
  destruct (Z.ltb_spec (w * h * 3 * bpc) payloadLen); split; try done; lia.
Qed.

(** The payload parser rejects the magic exactly when the first four
    bytes are neither SNIC nor SNIZ. *)
Lemma parsePayload_magic buffer :
  parsePayload buffer = Err InvalidInnerMagic <->
  magic_eq (slice buffer 0 4) MAGIC_SNIC = false /\
  magic_eq (slice buffer 0 4) MAGIC_SNIZ = false.
Proof.
  unfold parsePayload.
  destruct (magic_eq (slice buffer 0 4) MAGIC_SNIC) eqn:Hc;
    destruct (magic_eq (slice buffer 0 4) MAGIC_SNIZ) eqn:Hz; cbn [negb andb];
    try (split; [done | intros [? ?]; done]).
  all: split; [|intros [? ?]; done].
  all: intros Heq; exfalso; revert Heq.
  all: unfold getUint32, bind; repeat case_match; simplify_eq;
    intros Hx; discriminate Hx.
Qed.

(** C8: a pixel buffer whose four probe bytes are neither SNIC nor
    SNIZ and whose first 32 linear low bits do not spell SNIH is sent
    to neither extractor, and decoding fails with the error of kind
    [UnrecognizedFormat]. *)
Theorem unrecognized_format (image : ImageData) :
  bytes (data image) ->
  probe (data image) <> MAGIC_SNIC ->
  probe (data image) <> MAGIC_SNIZ ->
  linear_magic (data image) <> MAGIC_SNIH ->
  detect (data image) = Unknown /\
  decodeImageToFile image = Err NoSonicData /\
  kind_of NoSonicData = UnrecognizedFormat.
Proof.
  intros Hb Hc Hz Hh.
  assert (Hdetect : detect (data image) = Unknown).
  { rewrite detect_probe by done.
    unfold probe, linear_magic, MAGIC_SNIC, MAGIC_SNIZ, MAGIC_SNIH in *.
    by rewrite !magic_eq_false. }
  split; [done|]. split; [|done].
  unfold decodeImageToFile. by rewrite Hdetect.
Qed.

(** C7, at a buffer that ends after the magic: the length field is cut
    off, and the exception is the [RangeError] of
    [DataView.getUint32], not a "Header Read Error"; four bytes later,
    where the next field is cut off, it is one. *)
Theorem parsePayload_length_field_cut :
  parsePayload [0x53; 0x4E; 0x49; 0x43] = Err RangeError /\
  kind_of RangeError <> TruncatedHeader /\
  parsePayload [0x53; 0x4E; 0x49; 0x43; 0; 0; 0; 0] = Err BufferTruncated /\
  kind_of BufferTruncated = TruncatedHeader.
Proof.
  split; [reflexivity|]. split; [discriminate|]. split; reflexivity.
Qed.

(** C4, at an 8 x 8 image whose header declares 100 bytes at one bit
    per channel: the declared length is above the capacity of 24
    bytes, the header check lets it through (it compares the length in
    bytes with the capacity in bits), and decoding ends in the payload
    parser. *)
Theorem capacity_check_compares_bytes_with_bits :
  let image := forged_image 8 8 100 1 in
  detect (data image) = Stego 10 2 /\
  read_stego_header (data image) 10 2 = Ok (100, 1) /\
  8 * 8 * 3 * 1 < 100 * 8 /\
  check_stego_header 8 8 100 1 = Ok tt /\
  decodeImageToFile image = Err InvalidInnerMagic /\
  kind_of InvalidInnerMagic <> InvalidStegoHeader.
Proof. vm_compute. repeat split; discriminate. Qed.

End Detector.

(** C9: framing the empty file "a.mp3" of type "audio/mpeg" gives 25
    bytes; the noise encoder computes 9 pixels in a 3 x 3 image; decoding
    that image returns empty data with the type and the name. *)
Theorem empty_mp3_scenario :
  len (createPayload empty_mp3) = 25 /\
  noise_size (len (createPayload empty_mp3)) = (9, 3, 3) /\
  width (encodeFileToImage empty_mp3) = 3 /\
  height (encodeFileToImage empty_mp3) = 3 /\
  decodeImageToFile (encodeFileToImage empty_mp3) =
    Ok (@Build_DecodedAudio ascii_platform [] "a.mp3"%string "audio/mpeg"%string).
Proof. split; [|split; [|split; [|split]]]; vm_compute; reflexivity. Qed.

(** ** Stego extractor: the shape of the returned buffer *)

Lemma zero_padded_store payloadLen byteIdx bitIdx cur payload v :
  zero_padded payloadLen
    {| x_byteIdx := byteIdx; x_bitIdx := bitIdx; x_currentByte := cur;
       x_payload := payload |} ->
  byteIdx < payloadLen ->
  zero_padded payloadLen
    {| x_byteIdx := byteIdx + 1; x_bitIdx := 0; x_currentByte := 0;
       x_payload := wr payload byteIdx v |}.
Proof.
  intros (Hlen & Hidx & Hzero) Hlt. simpl in *. unfold zero_padded. simpl.
  rewrite len_wr. repeat split; try lia.
  intros i Hi. rewrite rd_wr_ne by lia. apply Hzero. lia.
Qed.

Lemma extract_bits_zero_padded n b bits payloadLen st :
  zero_padded payloadLen st -> x_byteIdx st < payloadLen ->
  zero_padded payloadLen (extract_bits n b bits payloadLen st).
Proof.
  revert b st. induction n as [|n IH]; intros b st Hst Hlt; [done|].
  cbn [extract_bits]. destruct st as [byteIdx bitIdx cur payload]. simpl in *.
  destruct (bitIdx + 1 =? 8).
  - pose proof (zero_padded_store _ _ _ _ _
                  (JS.wrap8 (Z.lor cur (Z.shiftl (Z.land (Z.shiftr bits b) 1) bitIdx)))
                  Hst Hlt) as Hst'.
    destruct (Z.leb_spec payloadLen (byteIdx + 1)); [exact Hst'|].
    apply IH; [exact Hst' | simpl; lia].
  - apply IH; [exact Hst | exact Hlt].
Qed.

Lemma extract_channels_zero_padded n c pixels target bpc payloadLen st :
  zero_padded payloadLen st -> x_byteIdx st < payloadLen ->
  zero_padded payloadLen (extract_channels n c pixels target bpc payloadLen st).
Proof.
  revert c st. induction n as [|n IH]; intros c st Hst Hlt; [done|].
  cbn [extract_channels].
  set (st' := extract_bits _ _ _ _ _).
  assert (Hst' : zero_padded payloadLen st') by by apply extract_bits_zero_padded.
  destruct (Z.leb_spec payloadLen (x_byteIdx st')); [done|]. by apply IH.
Qed.

Lemma extract_pixels_zero_padded shuffled pixels bpc payloadLen st :
  zero_padded payloadLen st ->
  zero_padded payloadLen (extract_pixels shuffled pixels bpc payloadLen st).
Proof.
  revert st. induction shuffled as [|target shuffled IH]; intros st Hst; [done|].
  cbn [extract_pixels].
  destruct (Z.ltb_spec (x_byteIdx st) payloadLen); [|done].
  apply IH. by apply extract_channels_zero_padded.
Qed.

Lemma rd_replicate n v i : v = 0 -> rd (replicate n v) i = 0.
Proof.
  intros ->. unfold rd. destruct (i <? 0); [done|].
  destruct (replicate n 0 !! Z.to_nat i) as [x|] eqn:Hx; [|done].
  apply lookup_replicate in Hx as [-> _]. done.
Qed.

Lemma len_replicate n v : 0 <= n -> len (replicate (Z.to_nat n) v) = n.
Proof. intros. unfold len. rewrite length_replicate. lia. Qed.

Lemma read_bytes_nonneg n pixels p c :
  Forall (fun v => 0 <= v) (read_bytes n pixels p c).1.1.
Proof.
  revert p c. induction n as [|n IH]; intros p c; [constructor|].
  cbn [read_bytes]. destruct (readByte pixels p c) as [[v p'] c'].
  specialize (IH p' c'). destruct (read_bytes n pixels p' c') as [[vs p''] c''].
  simpl in *. constructor; [|done]. unfold JS.wrap8. Z.div_mod_to_equations. lia.
Qed.

Lemma getUint32_nonneg b v :
  Forall (fun v => 0 <= v) b -> getUint32 b = Ok v -> 0 <= v.
Proof.
  intros Hb. unfold getUint32. destruct (len b <? 4); [done|].
  intros [= <-].
  assert (Hrd : forall i, 0 <= rd b i).
  { intros i. unfold rd. destruct (i <? 0); [lia|].
    destruct (b !! Z.to_nat i) as [x|] eqn:Hx; simpl; [|lia].
    rewrite Forall_lookup in Hb. eauto. }
  pose proof (Hrd 0). pose proof (Hrd 1). pose proof (Hrd 2). pose proof (Hrd 3). lia.
Qed.

Lemma read_stego_header_nonneg pixels p c payloadLen bpc :
  read_stego_header pixels p c = Ok (payloadLen, bpc) -> 0 <= payloadLen.
Proof.
  unfold read_stego_header. pose proof (read_bytes_nonneg 4 pixels p c) as Hb.
  destruct (read_bytes 4 pixels p c) as [[lenBytes p'] c']. simpl in Hb.
  destruct (getUint32 lenBytes) as [v|] eqn:Hv; [|done]. cbn [bind].
  destruct (readByte pixels p' c') as [[bpc' ?] ?]. intros [= <- _].
  by eapply getUint32_nonneg.
Qed.

(** C10, on an image of at least 32 pixels: when the header passes the
    two checks, the extraction ends without an exception, the buffer it
    hands on has exactly the declared length, and every byte from the
    write position on (the bytes never collected, if the shuffled
    indices ran out) is 0. *)
Theorem extractStego_zero_padded pixels W H p c payloadLen bpc :
  read_stego_header pixels p c = Ok (payloadLen, bpc) ->
  check_stego_header W H payloadLen bpc = Ok tt ->
  32 <= W * H ->
  exists st,
    extractStego pixels W H p c = Ok st /\
    len (x_payload st) = payloadLen /\
    0 <= x_byteIdx st <= payloadLen /\
    forall i, x_byteIdx st <= i < payloadLen -> rd (x_payload st) i = 0.
Proof.
  intros Hhdr Hchk Hsize.
  pose proof (read_stego_header_nonneg _ _ _ _ _ Hhdr) as Hlen.
  unfold extractStego. rewrite Hhdr. cbn [bind]. rewrite Hchk. cbn [bind].
  destruct (getShuffledIndices_Ok (W * H) RESERVED_HEADER_PIXELS)
    as (indices & -> & _); [unfold RESERVED_HEADER_PIXELS; lia|].
  cbn [bind]. eexists. split; [reflexivity|].
  set (st0 := {| x_byteIdx := 0; x_bitIdx := 0; x_currentByte := 0;
                 x_payload := replicate (Z.to_nat payloadLen) 0 |}).
  assert (H0 : zero_padded payloadLen st0).
  { unfold zero_padded, st0. simpl. rewrite len_replicate by done.
    repeat split; try lia. intros i _. by apply rd_replicate. }
  destruct (extract_pixels_zero_padded indices pixels bpc payloadLen st0 H0)
    as (Hl & Hi & Hz).
  split; [exact Hl|]. split; [exact Hi|]. intros i Hr. apply Hz. lia.
Qed.

(** ** Capacity planner *)

Lemma ceil_div_le a b q : 0 < b -> a <= b * q -> JS.ceil_div a b <= q.
Proof. intros. unfold JS.ceil_div. Z.div_mod_to_equations. nia. Qed.

Lemma exact_ceil_times_sqrt_ok x d a :
  0 < x -> 0 < a -> 0 <= d ->
  let n := exact_ceil_times_sqrt x d a in
  0 <= n /\ x * x * d <= n * n * a.
Proof.
  intros Hx Ha Hd n. subst n. unfold exact_ceil_times_sqrt.
  pose proof (ceil_div_ge (x * x * d) a Ha) as Hq.
  set (q := JS.ceil_div (x * x * d) a) in *.
  assert (0 <= q).
  { destruct (Z.le_gt_cases 0 q); [done|].
    pose proof (ceil_div_lt (x * x * d) a Ha). fold q in H. nia. }
  pose proof (ceil_sqrt_ge q ltac:(done)). pose proof (ceil_sqrt_nonneg q).
  split; [done|]. nia.
Qed.

Section Planner.
Context {platform : Platform}.

Lemma plan_capacity T W H bpc :
  0 <= T -> 0 < W -> 0 < H -> 32 < W * H -> 1 <= bpc ->
  scaling_ok W H ->
  exists newW newH,
    plan T W H bpc = (newW, newH, bpc) /\
    W <= newW /\ H <= newH /\ T <= (newW * newH - 32) * 3 * bpc.
Proof.
  intros HT HW HH Harea Hbpc Hok. unfold plan, RESERVED_HEADER_PIXELS. cbv zeta.
  set (avail := W * H - 32).
  unfold ceil_quot_gt. destruct (Z.eqb_spec (avail * 3) 0) as [|_]; [lia|].
  destruct (Z.ltb_spec bpc (JS.ceil_div T (avail * 3))) as [HA | HB].
  - (* the payload does not fit: scale to the desired pixel count *)
    assert (HTbig : avail * 3 * bpc < T).
    { destruct (Z.lt_ge_cases (avail * 3 * bpc) T); [done|].
      pose proof (ceil_div_le T (avail * 3) bpc). lia. }
    pose proof (ceil_div_ge T bpc ltac:(lia)) as Hdc.
    set (dc := JS.ceil_div T bpc) in *.
    pose proof (ceil_div_ge dc 3 ltac:(lia)) as Hdp.
    set (dp := JS.ceil_div dc 3 + 32) in *.
    assert (Hdpbig : W * H < dp) by nia.
    unfold scale_is_one, scale_max_one.
    destruct (Z.eqb_spec dp (W * H)) as [|_]; [lia|]. rewrite andb_false_r.
    destruct (Z.ltb_spec dp (W * H)) as [|_]; [lia|].
    cbn [ceil_scaled].
    destruct (Hok dp ltac:(lia)) as [[HnW HfitW] [HnH HfitH]].
    cbv zeta in HnW, HfitW, HnH, HfitH.
    set (nW := ceil_times_sqrt W dp (W * H)) in *.
    set (nH := ceil_times_sqrt H dp (W * H)) in *.
    exists nW, nH. split; [reflexivity|].
    assert (HW2 : W * dp <= nW * nW * H) by nia.
    assert (HH2 : H * dp <= nH * nH * W) by nia.
    assert (Hprod : dp * dp <= (nW * nH) * (nW * nH)).
    { assert ((W * dp) * (H * dp) <= (nW * nW * H) * (nH * nH * W))
        by (apply Z.mul_le_mono_nonneg; nia).
      apply (Z.mul_le_mono_pos_l _ _ (W * H)); [nia|]. nia. }
    assert (Hx : dp <= nW * nH)
      by (apply Z.square_le_simpl_nonneg; [nia | done]).
    split; [apply Z.square_le_simpl_nonneg; nia|].
    split; [apply Z.square_le_simpl_nonneg; nia|]. nia.
  - (* the payload fits: keep the size, or add headroom *)
    assert (HTfit : T <= avail * 3 * bpc).
    { pose proof (ceil_div_ge T (avail * 3) ltac:(lia)). nia. }
    unfold scale_is_one. rewrite andb_true_r.
    destruct (quot_gt_half T (avail * 3 * bpc)); unfold scale_max_one, ceil_scaled.
    + pose proof (ceil_div_ge (W * 5) 4 ltac:(lia)).
      pose proof (ceil_div_ge (H * 5) 4 ltac:(lia)).
      set (nW := JS.ceil_div (W * 5) 4) in *. set (nH := JS.ceil_div (H * 5) 4) in *.
      exists nW, nH. split; [reflexivity|]. split; [lia|]. split; [lia|].
      assert (W * H <= nW * nH) by (apply Z.mul_le_mono_nonneg; lia).
      subst avail. apply Z.le_trans with ((W * H - 32) * 3 * bpc); [done|].
      apply Z.mul_le_mono_nonneg_r; lia.
    + exists W, H. split; [reflexivity|]. split; [lia|]. split; [lia|].
      subst avail. lia.
Qed.


End Planner.

Lemma exact_scaling_ok W H : 0 < W -> 0 < H -> @scaling_ok ascii_platform W H.
Proof.
  intros HW HH d Hd. split; apply exact_ceil_times_sqrt_ok; nia.
Qed.


(** ** The payload bit stream *)

Lemma pbit_past_end payload p :
  8 * len payload <= p -> pbit payload p = false.
Proof.
  intros Hp. unfold pbit. pose proof (len_nonneg payload).
  rewrite rd_ge; [apply Z.bits_0 | Z.div_mod_to_equations; lia].
Qed.

Lemma chunk_past_end payload n p :
  8 * len payload <= p -> chunk payload n p = 0.
Proof.
  revert p. induction n as [|n IH]; intros p Hp; [done|].
  cbn [chunk]. rewrite pbit_past_end, IH by lia. done.
Qed.

Lemma chunk_range payload n p : 0 <= chunk payload n p < 2 ^ Z.of_nat n.
Proof.
  revert p. induction n as [|n IH]; intros p; [simpl; lia|].
  cbn [chunk]. pose proof (b2z_range (pbit payload p)). specialize (IH (p + 1)).
  rewrite Nat2Z.inj_succ, Z.pow_succ_r by lia. lia.
Qed.

Lemma chunk_testbit payload n p i :
  0 <= i < Z.of_nat n ->
  Z.testbit (chunk payload n p) i = pbit payload (p + i).
Proof.
  revert p i. induction n as [|n IH]; intros p i Hi; [lia|].
  cbn [chunk]. rewrite Z.add_comm.
  destruct (Z.eq_dec i 0) as [->|].
  - rewrite Z.testbit_0_r, Z.add_0_r. done.
  - replace i with (Z.succ (i - 1)) at 1 by lia.
    rewrite Z.testbit_succ_r, IH by lia. f_equal. lia.
Qed.

Lemma take_bits_chunk payload n b p acc :
  0 <= p <= 8 * len payload -> 0 <= b -> 0 <= acc < 2 ^ b ->
  take_bits payload n b (p / 8) (p mod 8) acc =
    (acc + 2 ^ b * chunk payload n p,
     Z.min (p + Z.of_nat n) (8 * len payload) / 8,
     Z.min (p + Z.of_nat n) (8 * len payload) mod 8).
Proof.
  revert b p acc. induction n as [|n IH]; intros b p acc Hp Hb Hacc.
  { cbn [take_bits chunk]. rewrite Z.add_0_r, Z.min_l by lia.
    do 2 f_equal. lia. }
  cbn [take_bits chunk].
  assert (Hpow : 2 ^ (b + 1) = 2 * 2 ^ b) by (rewrite Z.pow_add_r; lia).
  destruct (Z.ltb_spec (p / 8) (len payload)) as [Hlt | Hge].
  - assert (Hp8 : p < 8 * len payload) by (Z.div_mod_to_equations; lia).
    rewrite bit_of_shiftr by (Z.div_mod_to_equations; lia).
    fold (pbit payload p). pose proof (b2z_range (pbit payload p)) as Hbit.
    rewrite lor_bit by lia.
    assert (Hnext : (if p mod 8 + 1 =? 8
      then take_bits payload n (b + 1) (p / 8 + 1) 0
             (acc + 2 ^ b * Z.b2z (pbit payload p))
      else take_bits payload n (b + 1) (p / 8) (p mod 8 + 1)
             (acc + 2 ^ b * Z.b2z (pbit payload p)))
      = take_bits payload n (b + 1) ((p + 1) / 8) ((p + 1) mod 8)
          (acc + 2 ^ b * Z.b2z (pbit payload p))).
    { destruct (Z.eqb_spec (p mod 8 + 1) 8); f_equal; Z.div_mod_to_equations; lia. }
    rewrite Hnext, IH by nia.
    replace (p + 1 + Z.of_nat n) with (p + Z.of_nat (S n)) by lia.
    do 2 f_equal. rewrite Hpow. ring.
  - assert (Hp8 : p = 8 * len payload) by (Z.div_mod_to_equations; lia).
    rewrite IH by nia. rewrite pbit_past_end, !chunk_past_end by lia.
    rewrite !Z.min_r by lia. do 2 f_equal. simpl. lia.
Qed.

(** What [embed_channels] stores in a channel: a byte whose low [bpc]
    bits are the embedded bits. *)
Lemma stored_value o v bpc :
  0 <= o <= 255 -> 1 <= bpc <= 8 -> 0 <= v < 2 ^ bpc ->
  let modifiedVal := substitute o v bpc in
  let stored := JS.clamp8 (if bpc <? 8 then applyOPAP o modifiedVal bpc
                           else modifiedVal) in
  0 <= stored <= 255 /\ Z.land stored (Z.shiftl 1 bpc - 1) = v.
Proof.
  intros Ho Hb Hv modifiedVal stored. subst stored.
  assert (Hm : modifiedVal = o - o mod 2 ^ bpc + v)
    by (apply substitute_arith; lia).
  clearbody modifiedVal. rewrite land_mask by lia.
  destruct (Z.ltb_spec bpc 8) as [Hlt | Hge].
  2:{ assert (bpc = 8) as -> by lia. change (2 ^ 8) with 256 in *.
      assert (modifiedVal = v) as -> by (Z.div_mod_to_equations; lia).
      rewrite clamp8_byte by lia. split; [lia|]. apply Z.mod_small. lia. }
  assert (Hb7 : 1 <= bpc <= 7) by lia. clear Hb Hlt. rename Hb7 into Hb.
  assert (Hout : 0 <= applyOPAP o modifiedVal bpc <= 255 /\
                 applyOPAP o modifiedVal bpc mod 2 ^ bpc = v).
  { destruct (applyOPAP_cases o modifiedVal bpc) as [H | [H | H]];
      destruct H as [-> H]; clear - Ho Hb Hv Hm H;
      each_bpc Hb; simpl in *; Z.div_mod_to_equations; lia. }
  destruct Hout as [Hr Hlow]. rewrite clamp8_byte by done. done.
Qed.

Lemma partial_0 payload : partial payload 0 = replicate (Z.to_nat (len payload)) 0.
Proof. unfold partial. rewrite Z.sub_0_r. done. Qed.

Lemma partial_all payload : partial payload (len payload) = payload.
Proof.
  unfold partial, len. rewrite Z.sub_diag, Nat2Z.id, firstn_all. apply app_nil_r.
Qed.

Lemma len_partial payload k : 0 <= k <= len payload -> len (partial payload k) = len payload.
Proof.
  intros Hk. unfold partial, len in *.
  rewrite length_app, length_take, length_replicate. lia.
Qed.

Lemma partial_step payload k :
  0 <= k < len payload ->
  wr (partial payload k) k (rd payload k) = partial payload (k + 1).
Proof.
  intros Hk. unfold wr, partial. destruct (Z.ltb_spec k 0); [lia|].
  assert (Hlen : length (take (Z.to_nat k) payload) = Z.to_nat k).
  { rewrite length_take. unfold len in Hk. lia. }
  rewrite insert_app_r_alt by lia. rewrite Hlen, Nat.sub_diag.
  replace (Z.to_nat (len payload - k)) with (S (Z.to_nat (len payload - (k + 1)))) by lia.
  cbn [replicate insert list_insert].
  replace (Z.to_nat (k + 1)) with (S (Z.to_nat k)) by lia.
  rewrite (take_S_r payload (Z.to_nat k) (rd payload k)) by (apply lookup_rd; lia).
  by rewrite <- app_assoc.
Qed.

Lemma next_bits byte bi :
  0 <= bi ->
  byte mod 2 ^ bi + 2 ^ bi * Z.b2z (Z.testbit byte bi) = byte mod 2 ^ (bi + 1).
Proof.
  intros Hbi. rewrite Z.testbit_spec' by lia.
  rewrite Z.pow_add_r by lia. change (2 ^ 1) with 2.
  rewrite Z.rem_mul_r by lia. done.
Qed.

Lemma extracted_0 payload :
  extracted payload 0 =
    {| x_byteIdx := 0; x_bitIdx := 0; x_currentByte := 0;
       x_payload := replicate (Z.to_nat (len payload)) 0 |}.
Proof.
  unfold extracted. change (0 / 8) with 0. change (0 mod 8) with 0.
  rewrite partial_0, Z.pow_0_r, Z.mod_1_r. done.
Qed.

Lemma extracted_all payload :
  x_payload (extracted payload (8 * len payload)) = payload.
Proof.
  unfold extracted. cbn [x_payload].
  replace (8 * len payload / 8) with (len payload) by (Z.div_mod_to_equations; lia).
  apply partial_all.
Qed.

(** One step of the extraction loop on the next payload bit. *)
Lemma extracted_step payload p :
  bytes payload -> 0 <= p < 8 * len payload ->
  let st := extracted payload p in
  let currentByte :=
    Z.lor (x_currentByte st) (Z.shiftl (Z.b2z (pbit payload p)) (x_bitIdx st)) in
  (if x_bitIdx st + 1 =? 8
   then {| x_byteIdx := x_byteIdx st + 1; x_bitIdx := 0; x_currentByte := 0;
           x_payload := wr (x_payload st) (x_byteIdx st) (JS.wrap8 currentByte) |}
   else {| x_byteIdx := x_byteIdx st; x_bitIdx := x_bitIdx st + 1;
           x_currentByte := currentByte; x_payload := x_payload st |})
  = extracted payload (p + 1).
Proof.
  intros Hb Hp st currentByte. subst st currentByte. unfold extracted.
  cbn [x_byteIdx x_bitIdx x_currentByte x_payload].
  pose proof (rd_bytes payload (p / 8) Hb) as Hbyte.
  assert (0 <= p mod 8 < 8) by (apply Z.mod_pos_bound; lia).
  rewrite lor_bit; [| lia | apply Z.mod_pos_bound; lia | apply b2z_range].
  unfold pbit. rewrite next_bits by lia.
  destruct (Z.eqb_spec (p mod 8 + 1) 8) as [He | Hne].
  - rewrite He. change (2 ^ 8) with 256.
    rewrite (Z.mod_small _ 256), wrap8_byte by lia.
    rewrite partial_step by (Z.div_mod_to_equations; lia).
    replace ((p + 1) / 8) with (p / 8 + 1) by (Z.div_mod_to_equations; lia).
    replace ((p + 1) mod 8) with 0 by (Z.div_mod_to_equations; lia).
    by rewrite Z.pow_0_r, Z.mod_1_r.
  - replace ((p + 1) / 8) with (p / 8) by (Z.div_mod_to_equations; lia).
    replace ((p + 1) mod 8) with (p mod 8 + 1) by (Z.div_mod_to_equations; lia).
    reflexivity.
Qed.

Lemma extract_bits_extracted payload n i bits p0 :
  bytes payload -> 0 <= i -> 0 <= p0 -> p0 + i < 8 * len payload ->
  (forall j, i <= j < i + Z.of_nat n -> Z.testbit bits j = pbit payload (p0 + j)) ->
  extract_bits n i bits (len payload) (extracted payload (p0 + i)) =
    extracted payload (Z.min (p0 + i + Z.of_nat n) (8 * len payload)).
Proof.
  intros Hb. revert i. induction n as [|n IH]; intros i Hi Hp0 Hlt Hbits.
  { cbn [extract_bits]. rewrite Z.add_0_r, Z.min_l by lia. done. }
  cbn [extract_bits]. rewrite bit_of_shiftr, Hbits by lia.
  pose proof (extracted_step payload (p0 + i) Hb ltac:(lia)) as Hstep.
  cbv zeta in Hstep.
  destruct (Z.eqb_spec (x_bitIdx (extracted payload (p0 + i)) + 1) 8) as [He | Hne].
  - rewrite Hstep.
    replace (x_byteIdx (extracted payload (p0 + i)) + 1)
      with (x_byteIdx (extracted payload (p0 + i + 1)))
      by (rewrite <- Hstep; done).
    cbn [extracted x_byteIdx].
    destruct (Z.leb_spec (len payload) ((p0 + i + 1) / 8)) as [Hend | Hmore].
    + f_equal. Z.div_mod_to_equations. lia.
    + replace (p0 + i + 1) with (p0 + (i + 1)) by lia.
      rewrite IH; [f_equal; lia | lia | lia | Z.div_mod_to_equations; lia |].
      intros j Hj. apply Hbits. lia.
  - rewrite Hstep. replace (p0 + i + 1) with (p0 + (i + 1)) by lia.
    rewrite IH; [f_equal; lia | lia | lia | |].
    + unfold extracted in Hne. cbn [x_bitIdx] in Hne. Z.div_mod_to_equations. lia.
    + intros j Hj. apply Hbits. lia.
Qed.

Lemma bytes_wr a i v : bytes a -> 0 <= v < 256 -> bytes (wr a i v).
Proof.
  intros Ha Hv. unfold wr. destruct (i <? 0); [done|]. by apply Forall_insert.
Qed.

Lemma embedded_eta st p :
  e_byteIdx st = p / 8 -> e_bitIdx st = p mod 8 -> st = embedded p (e_pixels st).
Proof. destruct st. simpl. intros -> ->. done. Qed.

(** ** Embedding and extraction in lockstep *)

Section Lockstep.
Variables (payload : list Z) (bpc : Z).
Hypothesis payload_bytes : bytes payload.
Hypothesis bpc_range : 1 <= bpc <= 8.

Local Abbreviation L := (len payload).

(** The channels of one target pixel: where the embedder leaves the
    cursor, what it leaves of the pixels, and what the extractor reads
    back from any buffer that agrees with the result on these
    channels. *)
Lemma channels_lockstep n c t p px :
  0 <= p < 8 * L -> 0 <= c -> 0 <= t -> bytes px ->
  t * 4 + c + Z.of_nat n <= len px ->
  let st' := embed_channels n c payload t bpc (embedded p px) in
  let p' := Z.min (p + Z.of_nat n * bpc) (8 * L) in
  e_byteIdx st' = p' / 8 /\ e_bitIdx st' = p' mod 8 /\
  len (e_pixels st') = len px /\ bytes (e_pixels st') /\
  (forall q, q < t * 4 + c \/ t * 4 + c + Z.of_nat n <= q ->
             rd (e_pixels st') q = rd px q) /\
  forall PX,
    (forall q, t * 4 + c <= q < t * 4 + c + Z.of_nat n ->
               rd PX q = rd (e_pixels st') q) ->
    extract_channels n c PX t bpc L (extracted payload p) = extracted payload p'.
Proof.
  revert c p px. induction n as [|n IH]; intros c p px Hp Hc Ht Hpx Hfit.
  { cbn [embed_channels extract_channels]. cbv zeta.
    rewrite Z.mul_0_l, Z.add_0_r, Z.min_l by lia.
    cbn [embedded e_byteIdx e_bitIdx e_pixels]. by repeat split. }
  cbn [embed_channels]. cbn [embedded e_byteIdx e_bitIdx e_pixels].
  rewrite take_bits_chunk by (fold L; simpl; lia).
  rewrite Z2Nat.id by lia. fold L.
  change (2 ^ 0) with 1. rewrite Z.add_0_l, Z.mul_1_l.
  set (v := chunk payload (Z.to_nat bpc) p).
  set (o := rd px (t * 4 + c)).
  set (p1 := Z.min (p + bpc) (8 * L)).
  assert (Hv : 0 <= v < 2 ^ bpc).
  { pose proof (chunk_range payload (Z.to_nat bpc) p) as Hr.
    rewrite Z2Nat.id in Hr by lia. exact Hr. }
  assert (Ho : 0 <= o <= 255).
  { pose proof (rd_bytes px (t * 4 + c) Hpx). fold o in H. lia. }
  destruct (stored_value o v bpc Ho bpc_range Hv) as [Hs Hlow].
  cbv zeta in Hs, Hlow.
  set (stored := JS.clamp8 _) in *.
  set (px1 := wr px (t * 4 + c) stored).
  assert (Hpx1 : bytes px1) by (apply bytes_wr; [done | lia]).
  assert (Hlen1 : len px1 = len px) by apply len_wr.
  assert (Hrd1 : rd px1 (t * 4 + c) = stored) by (apply rd_wr_eq; lia).
  assert (Hbits : forall PX, rd PX (t * 4 + c) = stored ->
    extract_bits (Z.to_nat bpc) 0 (Z.land (rd PX (t * 4 + c)) (Z.shiftl 1 bpc - 1))
      L (extracted payload p) = extracted payload p1).
  { intros PX ->. rewrite Hlow.
    pose proof (extract_bits_extracted payload (Z.to_nat bpc) 0 v p
                  payload_bytes ltac:(lia) ltac:(lia)) as Hx.
    rewrite Z.add_0_r, Z2Nat.id in Hx by lia. fold L in Hx. apply Hx; [lia|].
    intros j Hj. apply chunk_testbit. lia. }
  cbv zeta.
  destruct (Z.le_gt_cases (8 * L) (p + bpc)) as [Hend | Hmore].
  - (* the payload ends in this channel *)
    assert (Hp1 : p1 = 8 * L) by (unfold p1; lia).
    assert (Hbreak : (L <=? p1 / 8) && (p1 mod 8 =? 0) = true).
    { rewrite Hp1. apply andb_true_iff. split.
      - apply Z.leb_le. Z.div_mod_to_equations. lia.
      - apply Z.eqb_eq. Z.div_mod_to_equations. lia. }
    rewrite Hbreak. cbn [e_byteIdx e_bitIdx e_pixels].
    replace (Z.min (p + Z.of_nat (S n) * bpc) (8 * L)) with p1 by nia.
    split; [done|]. split; [done|]. split; [done|]. split; [done|]. split.
    + intros q Hq. unfold px1. apply rd_wr_ne. lia.
    + intros PX HPX. cbn [extract_channels].
      rewrite Hbits by (rewrite HPX, Hrd1 by lia; done).
      cbn [extracted x_byteIdx].
      destruct (Z.leb_spec L (p1 / 8)) as [_|]; [done|].
      Z.div_mod_to_equations. lia.
  - (* more payload bits remain after this channel *)
    assert (Hp1 : p1 = p + bpc) by (unfold p1; lia).
    assert (Hgo : (L <=? p1 / 8) && (p1 mod 8 =? 0) = false).
    { apply andb_false_iff. left. apply Z.leb_gt. Z.div_mod_to_equations. lia. }
    rewrite Hgo. fold (embedded p1 px1).
    destruct (IH (c + 1) p1 px1) as (Hby & Hbi & Hlen & Hbytes & Hframe & Hext);
      [lia | lia | lia | done | lia |].
    cbv zeta in Hby, Hbi, Hlen, Hbytes, Hframe, Hext.
    set (st' := embed_channels n (c + 1) payload t bpc (embedded p1 px1)) in *.
    replace (Z.min (p + Z.of_nat (S n) * bpc) (8 * L))
      with (Z.min (p1 + Z.of_nat n * bpc) (8 * L)) by nia.
    split; [done|]. split; [done|]. split; [lia|]. split; [done|]. split.
    + intros q Hq. rewrite Hframe by lia. unfold px1. apply rd_wr_ne. lia.
    + intros PX HPX. cbn [extract_channels].
      rewrite Hbits by (rewrite HPX, Hframe, Hrd1 by lia; done).
      cbn [extracted x_byteIdx].
      destruct (Z.leb_spec L (p1 / 8)) as [|_];
        [Z.div_mod_to_equations; lia|].
      apply Hext. intros q Hq. apply HPX. lia.
Qed.

(** The whole walk over the shuffled indices. *)
Lemma pixels_lockstep indices p px :
  0 <= p <= 8 * L -> NoDup indices -> bytes px ->
  (forall t, t ∈ indices -> 0 <= t /\ t * 4 + 3 <= len px) ->
  let st' := embed_pixels indices payload bpc (embedded p px) in
  let p' := Z.min (p + Z.of_nat (length indices) * (3 * bpc)) (8 * L) in
  len (e_pixels st') = len px /\ bytes (e_pixels st') /\
  (forall q, (forall t, t ∈ indices -> ~ (t * 4 <= q < t * 4 + 3)) ->
             rd (e_pixels st') q = rd px q) /\
  forall PX,
    (forall t q, t ∈ indices -> t * 4 <= q < t * 4 + 3 ->
                 rd PX q = rd (e_pixels st') q) ->
    extract_pixels indices PX bpc L (extracted payload p) = extracted payload p'.
Proof.
  revert p px. induction indices as [|t rest IH]; intros p px Hp Hnd Hpx Hin.
  { cbn [embed_pixels extract_pixels length]. cbv zeta.
    rewrite Z.mul_0_l, Z.add_0_r, Z.min_l by lia. by repeat split. }
  apply NoDup_cons in Hnd as [Hnotin Hnd].
  cbn [embed_pixels extract_pixels]. cbn [embedded e_byteIdx extracted x_byteIdx].
  fold L. fold (embedded p px). fold (extracted payload p).
  destruct (Z.ltb_spec (p / 8) L) as [Hlt | Hge].
  - assert (Hp8 : p < 8 * L) by (Z.div_mod_to_equations; lia).
    destruct (Hin t ltac:(left)) as [Ht0 Htlen].
    destruct (channels_lockstep 3 0 t p px) as (Hby & Hbi & Hlen & Hbytes & Hframe & Hext);
      [lia | lia | lia | done | simpl; lia |].
    cbv zeta in Hby, Hbi, Hlen, Hbytes, Hframe, Hext.
    set (st1 := embed_channels 3 0 payload t bpc (embedded p px)) in *.
    set (p1 := Z.min (p + Z.of_nat 3 * bpc) (8 * L)) in *.
    rewrite (embedded_eta st1 p1 Hby Hbi).
    destruct (IH p1 (e_pixels st1)) as (Hlen' & Hbytes' & Hframe' & Hext');
      [unfold p1; lia | done | done | |].
    { intros t' Ht'. rewrite Hlen. apply Hin. by right. }
    cbv zeta in Hlen', Hbytes', Hframe', Hext'.
    set (st' := embed_pixels rest payload bpc (embedded p1 (e_pixels st1))) in *.
    cbv zeta.
    replace (Z.min (p + Z.of_nat (length (t :: rest)) * (3 * bpc)) (8 * L))
      with (Z.min (p1 + Z.of_nat (length rest) * (3 * bpc)) (8 * L))
      by (unfold p1; cbn [length]; nia).
    split; [lia|]. split; [done|]. split.
    + intros q Hq. rewrite Hframe'.
      * apply Hframe. specialize (Hq t ltac:(left)). lia.
      * intros t' Ht'. apply Hq. by right.
    + intros PX HPX. rewrite Hext.
      * apply Hext'. intros t' q Ht' Hq. apply (HPX t' q); [by right | done].
      * intros q Hq. rewrite (HPX t q) by (first [by left | lia]).
        apply Hframe'. intros t' Ht' Hq'.
        assert (t' <> t) by (intros ->; done). lia.
  - assert (Hp8 : p = 8 * L) by (Z.div_mod_to_equations; lia).
    cbv zeta. rewrite Z.min_r by nia. rewrite <- Hp8.
    cbn [embedded e_pixels]. by repeat split.
Qed.

End Lockstep.

(** ** Writing and reading the stego header *)

Lemma rd_cons_0 x a : rd (x :: a) 0 = x.
Proof. reflexivity. Qed.

Lemma rd_cons_pos x a i : 0 < i -> rd (x :: a) i = rd a (i - 1).
Proof.
  intros Hi. change (x :: a) with ([x] ++ a).
  rewrite rd_app_r by (change (len [x]) with 1; lia). done.
Qed.

Lemma len_bits_of n b x : len (bits_of n b x) = Z.of_nat n.
Proof.
  revert b. induction n as [|n IH]; intros b; [done|].
  cbn [bits_of]. rewrite len_cons, IH. lia.
Qed.

Lemma rd_bits_of n b x j :
  0 <= b -> 0 <= j < Z.of_nat n ->
  rd (bits_of n b x) j = Z.b2z (Z.testbit x (b + j)).
Proof.
  revert b j. induction n as [|n IH]; intros b j Hb Hj; [lia|].
  cbn [bits_of]. destruct (Z.eq_dec j 0) as [->|].
  - rewrite rd_cons_0, Z.add_0_r. by apply bit_of_shiftr.
  - rewrite rd_cons_pos, IH by lia. do 2 f_equal. lia.
Qed.

Lemma bits_of_bits n b x :
  0 <= b -> Forall (fun bit => 0 <= bit <= 1) (bits_of n b x).
Proof.
  revert b. induction n as [|n IH]; intros b Hb; [constructor|].
  cbn [bits_of]. constructor; [|apply IH; lia].
  rewrite bit_of_shiftr by done. apply b2z_range.
Qed.

Lemma headerBits_word length finalBPC :
  headerBits length finalBPC =
    bits_of 32 0 SNIH_word ++ bits_of 32 0 (JS.ToInt32 length) ++ bits_of 8 0 finalBPC.
Proof. reflexivity. Qed.

Lemma testbit_ToInt32 x j : 0 <= j < 32 -> Z.testbit (JS.ToInt32 x) j = Z.testbit x j.
Proof.
  intros Hj. rewrite <- (Z.mod_pow2_bits_low (JS.ToInt32 x) 32 j) by lia.
  rewrite <- (Z.mod_pow2_bits_low x 32 j) by lia. f_equal.
  unfold JS.ToInt32. Z.div_mod_to_equations. lia.
Qed.

(** The 72 header bits, by position. *)
Lemma rd_headerBits length finalBPC j :
  0 <= j < 72 ->
  rd (headerBits length finalBPC) j =
    Z.b2z (if j <? 32 then Z.testbit SNIH_word j
           else if j <? 64 then Z.testbit length (j - 32)
           else Z.testbit finalBPC (j - 64)).
Proof.
  intros Hj. rewrite headerBits_word.
  destruct (Z.ltb_spec j 32).
  { rewrite rd_app_l, rd_bits_of by (rewrite ?len_bits_of; lia). done. }
  rewrite rd_app_r by (rewrite len_bits_of; lia). rewrite len_bits_of.
  destruct (Z.ltb_spec j 64).
  { rewrite rd_app_l, rd_bits_of, testbit_ToInt32 by (rewrite ?len_bits_of; lia).
    do 2 f_equal; lia. }
  rewrite rd_app_r by (rewrite len_bits_of; lia). rewrite len_bits_of.
  rewrite rd_bits_of by lia. do 2 f_equal; lia.
Qed.

Lemma headerBits_bits length finalBPC :
  Forall (fun bit => 0 <= bit <= 1) (headerBits length finalBPC).
Proof.
  rewrite headerBits_word. repeat apply Forall_app_2; by apply bits_of_bits.
Qed.

Lemma len_headerBits length finalBPC : len (headerBits length finalBPC) = 72.
Proof. rewrite headerBits_word. len_simpl. rewrite !len_bits_of. lia. Qed.

Lemma set_low_bit x bit :
  0 <= x <= 255 -> 0 <= bit <= 1 ->
  let w := JS.clamp8 (Z.lor (Z.land x (Z.lnot 1)) bit) in
  0 <= w <= 255 /\ Z.land w 1 = bit.
Proof.
  intros Hx Hbit w. subst w.
  change (Z.lor (Z.land x (Z.lnot 1)) bit) with (substitute x bit 1).
  rewrite substitute_arith by (simpl; lia). change (2 ^ 1) with 2.
  rewrite clamp8_byte by (Z.div_mod_to_equations; lia).
  rewrite land_1. Z.div_mod_to_equations. lia.
Qed.

(** Writing bits into the linear stream from bit [k] on: the array
    keeps its length and stays an array of bytes, nothing below the
    first written channel changes, and the stream then carries the
    bits. *)
Lemma write_header_linear bits k px :
  0 <= k -> Forall (fun bit => 0 <= bit <= 1) bits -> bytes px ->
  4 * ((k + len bits + 2) / 3) <= len px ->
  let px' := write_header bits (k / 3) (k mod 3) px in
  len px' = len px /\ bytes px' /\
  (forall q, q < k / 3 * 4 + k mod 3 -> rd px' q = rd px q) /\
  forall j, 0 <= j < len bits -> linear_bit px' (k + j) = rd bits j.
Proof.
  intros Hk Hbits. revert k px Hk.
  induction Hbits as [|bit bits Hbit Hbits IH]; intros k px Hk Hpx Hfit.
  { cbn [write_header]. cbv zeta. repeat split; try done. intros j. rewrite len_nil. lia. }
  cbn [write_header]. rewrite len_cons in Hfit.
  pose proof (len_nonneg bits) as Hlb.
  set (pos := k / 3 * 4 + k mod 3).
  assert (Hpos : 0 <= pos < len px) by (unfold pos; Z.div_mod_to_equations; lia).
  destruct (set_low_bit (rd px pos) bit) as [Hw Hlow];
    [pose proof (rd_bytes px pos Hpx); lia | done |].
  cbv zeta in Hw, Hlow. set (w := JS.clamp8 _) in *.
  set (px1 := wr px pos w).
  assert (Hnext : (if 2 <? k mod 3 + 1
                   then write_header bits (k / 3 + 1) 0 px1
                   else write_header bits (k / 3) (k mod 3 + 1) px1)
                  = write_header bits ((k + 1) / 3) ((k + 1) mod 3) px1).
  { destruct (Z.ltb_spec 2 (k mod 3 + 1)); f_equal; Z.div_mod_to_equations; lia. }
  rewrite Hnext.
  destruct (IH (k + 1) px1) as (Hlen & Hbytes & Hframe & Hread);
    [lia | apply bytes_wr; [done | lia] |
     unfold px1; rewrite len_wr; replace (k + 1 + len bits + 2) with (k + (1 + len bits) + 2) by lia; done |].
  cbv zeta in Hlen, Hbytes, Hframe, Hread. cbv zeta.
  set (px' := write_header bits ((k + 1) / 3) ((k + 1) mod 3) px1) in *.
  assert (Hlt : pos < (k + 1) / 3 * 4 + (k + 1) mod 3)
    by (unfold pos; Z.div_mod_to_equations; lia).
  split; [unfold px1 in Hlen; rewrite len_wr in Hlen; done|]. split; [done|]. split.
  - intros q Hq. rewrite Hframe by (fold pos in Hq; lia).
    unfold px1. apply rd_wr_ne. fold pos in Hq. lia.
  - intros j Hj. rewrite len_cons in Hj. destruct (Z.eq_dec j 0) as [->|].
    + rewrite Z.add_0_r, rd_cons_0. unfold linear_bit. fold pos.
      rewrite Hframe by done. unfold px1. rewrite rd_wr_eq by done. done.
    + rewrite rd_cons_pos by lia. rewrite <- Hread by lia. f_equal. lia.
Qed.

Lemma linear_value_testbits px n k x o :
  0 <= o ->
  (forall j, 0 <= j < Z.of_nat n -> linear_bit px (k + j) = Z.b2z (Z.testbit x (o + j))) ->
  linear_value px n k = (x / 2 ^ o) mod 2 ^ Z.of_nat n.
Proof.
  revert k o. induction n as [|n IH]; intros k o Ho Hbits.
  { cbn [linear_value]. by rewrite Z.pow_0_r, Z.mod_1_r. }
  cbn [linear_value]. rewrite (IH (k + 1) (o + 1)); [|lia|].
  2:{ intros j Hj. replace (k + 1 + j) with (k + (1 + j)) by lia.
      rewrite Hbits by lia. do 2 f_equal; lia. }
  rewrite <- (Z.add_0_r k), Hbits, Z.add_0_r by lia.
  rewrite Z.testbit_spec' by done.
  rewrite Nat2Z.inj_succ, Z.pow_succ_r by lia.
  rewrite (Z.rem_mul_r _ 2 (2 ^ Z.of_nat n)) by lia.
  rewrite Z.pow_add_r, Z.div_div by lia. done.
Qed.

Lemma force_alpha_bytes n i px :
  bytes px ->
  len (force_alpha n i px) = len px /\ bytes (force_alpha n i px).
Proof.
  revert i px. induction n as [|n IH]; intros i px Hpx; [done|].
  cbn [force_alpha]. destruct (IH (i + 4) (wr px i 255)) as [Hl Hb].
  - apply bytes_wr; [done | lia].
  - rewrite len_wr in Hl. done.
Qed.

(** What the decoder reads from an image whose linear stream starts
    with the 72 header bits. *)
Lemma header_values F length finalBPC :
  (forall j, 0 <= j < 72 -> linear_bit F j = rd (headerBits length finalBPC) j) ->
  0 <= length < 2 ^ 32 -> 0 <= finalBPC < 256 ->
  linear_magic F = MAGIC_SNIH /\
  getUint32 [linear_value F 8 32; linear_value F 8 40;
             linear_value F 8 48; linear_value F 8 56] = Ok length /\
  linear_value F 8 64 = finalBPC /\
  Z.land (rd F 1) 1 = 1.
Proof.
  intros Hlin Hlen Hbpc.
  assert (Hmagic : forall o, 0 <= o <= 24 ->
            linear_value F 8 o = (SNIH_word / 2 ^ o) mod 2 ^ Z.of_nat 8).
  { intros o Ho. apply linear_value_testbits; [lia|]. intros j Hj.
    rewrite Hlin, rd_headerBits by lia.
    destruct (Z.ltb_spec (o + j) 32); [done | lia]. }
  assert (Hlength : forall o, 0 <= o <= 24 ->
            linear_value F 8 (32 + o) = (length / 2 ^ o) mod 2 ^ Z.of_nat 8).
  { intros o Ho. apply linear_value_testbits; [lia|]. intros j Hj.
    rewrite Hlin, rd_headerBits by lia.
    destruct (Z.ltb_spec (32 + o + j) 32); [lia|].
    destruct (Z.ltb_spec (32 + o + j) 64); [|lia]. do 2 f_equal; lia. }
  assert (Hbits : linear_value F 8 64 = (finalBPC / 2 ^ 0) mod 2 ^ Z.of_nat 8).
  { apply linear_value_testbits; [lia|]. intros j Hj.
    rewrite Hlin, rd_headerBits by lia.
    destruct (Z.ltb_spec (64 + j) 32); [lia|].
    destruct (Z.ltb_spec (64 + j) 64); [lia|]. do 2 f_equal; lia. }
  split; [|split; [|split]].
  - unfold linear_magic. rewrite !Hmagic by lia. reflexivity.
  - change 40 with (32 + 8). change 48 with (32 + 16). change 56 with (32 + 24).
    rewrite <- (Z.add_0_r 32) at 1. rewrite !Hlength by lia.
    unfold getUint32. change (len [_; _; _; _] <? 4) with false. cbv iota.
    change (rd (?a :: _) 0) with a. change (rd (_ :: ?a :: _) 1) with a.
    change (rd (_ :: _ :: ?a :: _) 2) with a.
    change (rd (_ :: _ :: _ :: ?a :: _) 3) with a.
    f_equal. change (2 ^ Z.of_nat 8) with 256. change (2 ^ 0) with 1.
    change (2 ^ 8) with 256. change (2 ^ 16) with 65536. change (2 ^ 24) with 16777216.
    Z.div_mod_to_equations. lia.
  - rewrite Hbits. change (2 ^ 0) with 1. change (2 ^ Z.of_nat 8) with 256.
    rewrite Z.div_1_r. apply Z.mod_small. lia.
  - specialize (Hlin 1 ltac:(lia)). rewrite rd_headerBits in Hlin by lia.
    exact Hlin.
Qed.

(** ** Stego round trip *)

Section Stego.
Context `{Platform}.

(** The embedder succeeds, and the decoder recovers the framed payload
    from the image it produces and hands it to [parsePayload]; at 8
    bits per channel the embedder skips the adjustment and replaces
    the whole channel. *)
Lemma hidden_payload_decodes (file : File) (cover : ImageBitmap) (targetBPC : Z) :
  bytes (createPayload file) ->
  len (createPayload file) < 2 ^ 32 ->
  cover_ok cover ->
  32 < img_width cover * img_height cover ->
  scaling_ok (img_width cover) (img_height cover) ->
  1 <= targetBPC <= 8 ->
  exists image,
    hideDataInImage file cover targetBPC = Ok image /\
    image_ok image /\
    decodeImageToFile image = parsePayload (createPayload file).
Proof.
  intros Hpb Hplen (HW & HH & Hdraw) Harea Hok Hbpc.
  unfold hideDataInImage.
  set (payload := createPayload file) in *.
  pose proof (len_nonneg payload) as Hl0.
  destruct (plan_capacity (len payload * 8) (img_width cover) (img_height cover)
              targetBPC) as (newW & newH & Hplan & HnW & HnH & Hcap);
    [lia.. | done |].
  rewrite Hplan.
  assert (HN : 32 < newW * newH) by nia.
  destruct (Hdraw newW newH) as [Hlen0 Hb0]; [lia..|].
  set (px0 := drawImage cover newW newH) in *.
  destruct (force_alpha_bytes (Z.to_nat (len px0 / 4)) 3 px0 Hb0) as [Hlen1 Hb1].
  set (px1 := force_alpha _ 3 px0) in *.
  pose proof (write_header_linear (headerBits (len payload) targetBPC) 0 px1
                ltac:(lia) (headerBits_bits _ _) Hb1) as Hhdr.
  rewrite len_headerBits in Hhdr.
  destruct Hhdr as (Hlen2 & Hb2 & _ & Hread2);
    [change ((0 + 72 + 2) / 3) with 24; lia|].
  change (0 / 3) with 0 in *. change (0 mod 3) with 0 in *.
  set (px2 := write_header _ 0 0 px1) in *.
  destruct (getShuffledIndices_Ok (newW * newH) RESERVED_HEADER_PIXELS)
    as (indices & Hidx & Hperm); [unfold RESERVED_HEADER_PIXELS; lia|].
  rewrite Hidx. cbn [bind].
  unfold RESERVED_HEADER_PIXELS in Hperm.
  assert (Hmem : forall t, t ∈ indices -> 32 <= t < newW * newH).
  { intros t Ht. rewrite Hperm in Ht. apply elem_of_seqZ in Ht. lia. }
  assert (Hnd : NoDup indices) by (rewrite Hperm; apply NoDup_seqZ).
  assert (Hcount : Z.of_nat (length indices) = newW * newH - 32).
  { rewrite Hperm, length_seqZ. lia. }
  destruct (pixels_lockstep payload targetBPC Hpb Hbpc indices 0 px2)
    as (HlenF & HbF & HframeF & Hext); [lia | done | done | |].
  { intros t Ht. specialize (Hmem t Ht). lia. }
  cbv zeta in HlenF, HbF, HframeF, Hext.
  change (embedded 0 px2)
    with {| e_byteIdx := 0; e_bitIdx := 0; e_pixels := px2 |} in *.
  set (F := e_pixels (embed_pixels indices payload targetBPC _)) in *.
  eexists. split; [reflexivity|]. split.
  { unfold image_ok. cbn [width height data]. repeat split; try lia; done. }
  (* decoding *)
  assert (Hlin : forall j, 0 <= j < 72 ->
            linear_bit F j = rd (headerBits (len payload) targetBPC) j).
  { intros j Hj. rewrite <- Hread2 by lia. rewrite Z.add_0_l.
    unfold linear_bit. rewrite HframeF; [done|].
    intros t Ht. specialize (Hmem t Ht). Z.div_mod_to_equations. lia. }
  destruct (header_values F (len payload) targetBPC Hlin)
    as (Hmagic & Hlength & Hbits & Hodd); [lia..|].
  unfold decodeImageToFile. cbn [data width height].
  rewrite detect_probe by done. rewrite Hmagic.
  assert (Hraw : forall m0 m2 m3,
            magic_eq (probe F) [m0; 0x4E; m2; m3] = false).
  { intros m0 m2 m3. unfold probe. apply magic_eq_false. intros [= _ H1 _ _].
    rewrite H1 in Hodd. discriminate Hodd. }
  unfold MAGIC_SNIC, MAGIC_SNIZ. rewrite !Hraw. cbn [orb].
  change (magic_eq MAGIC_SNIH MAGIC_SNIH) with true. cbv iota.
  unfold decodeStegoImage, extractStego.
  rewrite read_stego_header_linear, Hlength, Hbits. cbn [bind].
  assert (Hcheck : check_stego_header newW newH (len payload) targetBPC = Ok tt).
  { unfold check_stego_header.
    destruct (Z.ltb_spec targetBPC 1); [lia|].
    destruct (Z.ltb_spec 8 targetBPC); [lia|]. cbn [orb].
    destruct (Z.ltb_spec (newW * newH * 3 * targetBPC) (len payload)); [nia | done]. }
  rewrite Hcheck, Hidx. cbn [bind].
  rewrite <- extracted_0, Hext by done. f_equal.
  replace (Z.min (0 + Z.of_nat (length indices) * (3 * targetBPC)) (8 * len payload))
    with (8 * len payload) by (rewrite Hcount; nia).
  apply extracted_all.
Qed.

Lemma decode_hidden_payload (file : File) (cover : ImageBitmap) (targetBPC : Z) :
  bytes (createPayload file) ->
  len (createPayload file) < 2 ^ 32 ->
  cover_ok cover ->
  32 < img_width cover * img_height cover ->
  scaling_ok (img_width cover) (img_height cover) ->
  1 <= targetBPC <= 7 ->
  exists image,
    hideDataInImage file cover targetBPC = Ok image /\
    image_ok image /\
    decodeImageToFile image = parsePayload (createPayload file).
Proof. intros. apply hidden_payload_decodes; try done. lia. Qed.


End Stego.

(** ** The properties at sample inputs *)

Lemma sample_cover_ok : cover_ok sample_cover.
Proof.
  unfold cover_ok, sample_cover. cbn [img_width img_height drawImage].
  split; [lia|]. split; [lia|]. intros w h Hw Hh. split.
  - unfold len. rewrite length_fmap, length_seqZ. nia.
  - unfold bytes. apply Forall_fmap, Forall_forall. intros i _. simpl.
    apply Z.mod_pos_bound. lia.
Qed.

Ltac sample_bytes := unfold bytes; vm_compute; repeat constructor; discriminate.

Ltac sample_text := split; [sample_bytes | reflexivity].



Lemma unrecognized_format_witness :
  detect (data black_pixel) = Unknown /\
  @decodeImageToFile ascii_platform black_pixel = Err NoSonicData /\
  kind_of NoSonicData = UnrecognizedFormat.
Proof.
  apply (@unrecognized_format ascii_platform black_pixel).
  - sample_bytes.
  - by vm_compute.
  - by vm_compute.
  - by vm_compute.
Defined.

Lemma extractStego_zero_padded_witness :
  exists st,
    extractStego (data (forged_image 8 8 100 1)) 8 8 10 2 = Ok st /\
    len (x_payload st) = 100 /\
    0 <= x_byteIdx st <= 100 /\
    forall i, x_byteIdx st <= i < 100 -> rd (x_payload st) i = 0.
Proof.
  apply (extractStego_zero_padded (data (forged_image 8 8 100 1)) 8 8 10 2 100 1).
  - by vm_compute.
  - by vm_compute.
  - lia.
Defined.

(** C10 as stated fails on a 5 x 5 image: its header passes both
    checks, and the extraction ends in the [RangeError] of
    [new Uint32Array(-7)] instead of returning a buffer. *)
Lemma extractStego_small_image_raises :
  let pixels := data (forged_image 5 5 0 1) in
  detect pixels = Stego 10 2 /\
  read_stego_header pixels 10 2 = Ok (0, 1) /\
  check_stego_header 5 5 0 1 = Ok tt /\
  extractStego pixels 5 5 10 2 = Err RangeError /\
  ~ exists st, extractStego pixels 5 5 10 2 = Ok st.
Proof.
  cbv zeta.
  assert (Hraise : extractStego (data (forged_image 5 5 0 1)) 5 5 10 2 = Err RangeError)
    by (by vm_compute).
  split; [by vm_compute|]. split; [by vm_compute|]. split; [by vm_compute|].
  split; [exact Hraise|]. intros [st Hst]. rewrite Hraise in Hst. discriminate.
Qed.
